(** * clickhouse-go: options, connection pool and session recycling

    A shallow embedding of [clickhouse.go]: the [Options] structure with
    [setDefaults] and [fromDSN], [Open], and the pool operations [acquire],
    [release] and [Close] over the two buffered channels [open] and [idle].

    Conventions.
    - Go's [int] and [time.Duration] are 64-bit signed integers: they are
      values of [Z] and every addition the source performs goes through
      [int_wrap].
    - [*Options] and [*connect] are addresses into two typed heaps
      ([gmap loc _]); an address without a cell behaves like [nil], and
      reading through it panics.
    - A buffered channel is its queue together with its capacity; the
      non-blocking channel operations of a [select] with a [default] case
      are [try_send] and [try_recv]. *)

From Stdlib Require Import ZArith Lia.
From stdpp Require Import base numbers option list gmap strings.

Local Open Scope Z_scope.

(** ** Machine integers and durations *)

Definition int_min : Z := - 2 ^ 63.
Definition int_max : Z := 2 ^ 63 - 1.

(** Two's complement wrap-around of a 64-bit signed result. *)
Definition int_wrap (z : Z) : Z := (z + 2 ^ 63) mod 2 ^ 64 - 2 ^ 63.

Definition int_add (a b : Z) : Z := int_wrap (a + b).

Definition is_int (z : Z) : Prop := int_min <= z <= int_max.

(** [time.Second] and [time.Hour], in nanoseconds. *)
Definition time_Second : Z := 1000000000.
Definition time_Hour : Z := 3600 * time_Second.

(** [t.Sub(u)] saturates at the largest and the smallest [Duration];
    [time.Since(u)] is [time.Now().Sub(u)].  Instants are nanosecond
    readings of one clock. *)
Definition time_Sub (t u : Z) : Z := Z.max int_min (Z.min int_max (t - u)).
Definition time_Since (now u : Z) : Z := time_Sub now u.

(** ** Errors, panics and results *)

(** The values of Go's [error] interface that this file handles: [io.EOF],
    which [acquire] returns itself, whatever a dial attempt reports, and
    the errors of [url.Parse] and [strconv.ParseBool]. *)
Inductive error : Type :=
| io_EOF
| DialError (reason : string)
| url_Error (reason : string)
| strconv_SyntaxError (fn str : string).

Inductive panic : Type :=
| NilDereference      (* a field is read through a nil pointer *)
| MakechanSize.       (* [make(chan T, n)] with [n] out of range *)

(** A computation either returns or panics. *)
Inductive outcome (A : Type) : Type :=
| Done (a : A)
| Panics (p : panic).
Arguments Done {A} a.
Arguments Panics {A} p.

Definition obind {A B} (m : outcome A) (k : A -> outcome B) : outcome B :=
  match m with
  | Done a => k a
  | Panics p => Panics p
  end.

Notation "x ←! m ;; k" := (obind m (fun x => k))
  (at level 100, m at next level, right associativity).

Definition returns {A} (m : outcome A) : Prop := exists a, m = Done a.

(** ** The configuration *)

(** [compress.Method] is declared in [lib/compress]; the source names one
    of its values, [compress.LZ4]. *)
Inductive compress_Method : Type :=
| compress_NONE
| compress_LZ4
| compress_ZSTD.

Definition CompressionLZ4 : compress_Method := compress_LZ4.

Definition loc : Type := positive.

Record Auth : Type := {
  Database : string;
  Username : string;
  Password : string;
}.

Record Compression : Type := {
  Method : compress_Method;
}.

(** [TLS] and [Settings] are references the pool never looks through:
    they are kept as the (possibly nil) address they hold.  [Compression]
    is a pointer to a one-field structure that nothing mutates: [None] is
    nil. *)
Record Options : Type := {
  Addr : list string;
  Auth_ : Auth;
  TLS : option loc;
  Debug : bool;
  Settings : option loc;
  DialTimeout : Z;
  Compression_ : option Compression;
  MaxOpenConns : Z;
  MaxIdleConns : Z;
  ConnMaxLifetime : Z;
}.

Definition set_Database (v : string) (o : Options) : Options :=
  {| Addr := Addr o;
     Auth_ := {| Database := v; Username := Username (Auth_ o);
                 Password := Password (Auth_ o) |};
     TLS := TLS o; Debug := Debug o; Settings := Settings o;
     DialTimeout := DialTimeout o; Compression_ := Compression_ o;
     MaxOpenConns := MaxOpenConns o; MaxIdleConns := MaxIdleConns o;
     ConnMaxLifetime := ConnMaxLifetime o |}.

Definition set_Username (v : string) (o : Options) : Options :=
  {| Addr := Addr o;
     Auth_ := {| Database := Database (Auth_ o); Username := v;
                 Password := Password (Auth_ o) |};
     TLS := TLS o; Debug := Debug o; Settings := Settings o;
     DialTimeout := DialTimeout o; Compression_ := Compression_ o;
     MaxOpenConns := MaxOpenConns o; MaxIdleConns := MaxIdleConns o;
     ConnMaxLifetime := ConnMaxLifetime o |}.

Definition set_Addr (v : list string) (o : Options) : Options :=
  {| Addr := v; Auth_ := Auth_ o;
     TLS := TLS o; Debug := Debug o; Settings := Settings o;
     DialTimeout := DialTimeout o; Compression_ := Compression_ o;
     MaxOpenConns := MaxOpenConns o; MaxIdleConns := MaxIdleConns o;
     ConnMaxLifetime := ConnMaxLifetime o |}.

Definition set_Debug (v : bool) (o : Options) : Options :=
  {| Addr := Addr o; Auth_ := Auth_ o;
     TLS := TLS o; Debug := v; Settings := Settings o;
     DialTimeout := DialTimeout o; Compression_ := Compression_ o;
     MaxOpenConns := MaxOpenConns o; MaxIdleConns := MaxIdleConns o;
     ConnMaxLifetime := ConnMaxLifetime o |}.

Definition set_DialTimeout (v : Z) (o : Options) : Options :=
  {| Addr := Addr o; Auth_ := Auth_ o;
     TLS := TLS o; Debug := Debug o; Settings := Settings o;
     DialTimeout := v; Compression_ := Compression_ o;
     MaxOpenConns := MaxOpenConns o; MaxIdleConns := MaxIdleConns o;
     ConnMaxLifetime := ConnMaxLifetime o |}.

Definition set_Compression (v : option Compression) (o : Options) : Options :=
  {| Addr := Addr o; Auth_ := Auth_ o;
     TLS := TLS o; Debug := Debug o; Settings := Settings o;
     DialTimeout := DialTimeout o; Compression_ := v;
     MaxOpenConns := MaxOpenConns o; MaxIdleConns := MaxIdleConns o;
     ConnMaxLifetime := ConnMaxLifetime o |}.

Definition set_MaxOpenConns (v : Z) (o : Options) : Options :=
  {| Addr := Addr o; Auth_ := Auth_ o;
     TLS := TLS o; Debug := Debug o; Settings := Settings o;
     DialTimeout := DialTimeout o; Compression_ := Compression_ o;
     MaxOpenConns := v; MaxIdleConns := MaxIdleConns o;
     ConnMaxLifetime := ConnMaxLifetime o |}.

Definition set_MaxIdleConns (v : Z) (o : Options) : Options :=
  {| Addr := Addr o; Auth_ := Auth_ o;
     TLS := TLS o; Debug := Debug o; Settings := Settings o;
     DialTimeout := DialTimeout o; Compression_ := Compression_ o;
     MaxOpenConns := MaxOpenConns o; MaxIdleConns := v;
     ConnMaxLifetime := ConnMaxLifetime o |}.

Definition set_ConnMaxLifetime (v : Z) (o : Options) : Options :=
  {| Addr := Addr o; Auth_ := Auth_ o;
     TLS := TLS o; Debug := Debug o; Settings := Settings o;
     DialTimeout := DialTimeout o; Compression_ := Compression_ o;
     MaxOpenConns := MaxOpenConns o; MaxIdleConns := MaxIdleConns o;
     ConnMaxLifetime := v |}.

(** The zero value [Options{}]. *)
Definition zero_Options : Options :=
  {| Addr := []; Auth_ := {| Database := ""; Username := ""; Password := "" |};
   TLS := None; Debug := false; Settings := None; DialTimeout := 0;
   Compression_ := None; MaxOpenConns := 0; MaxIdleConns := 0;
   ConnMaxLifetime := 0 |}.

(** [len(s) == 0] on a Go string. *)
Definition empty_string (s : string) : bool := (String.length s =? 0)%nat.

(** [func (o *Options) setDefaults()]: the six guarded assignments, in the
    source's order; the receiver's new contents are the result. *)
Definition setDefaults (o : Options) : Options :=
  let o := if empty_string (Database (Auth_ o))
           then set_Database "default" o else o in
  let o := if empty_string (Username (Auth_ o))
           then set_Username "default" o else o in
  let o := if DialTimeout o =? 0
           then set_DialTimeout time_Second o else o in
  let o := if MaxIdleConns o <=? 0
           then set_MaxIdleConns 5 o else o in
  let o := if MaxOpenConns o <=? 0
           then set_MaxOpenConns (int_add (MaxIdleConns o) 5) o else o in
  let o := if ConnMaxLifetime o =? 0
           then set_ConnMaxLifetime time_Hour o else o in
  o.

(** ** Buffered channels *)

Record chan (A : Type) : Type := {
  buf : list A;   (* queued elements, oldest first *)
  cap : Z;        (* the capacity given to [make] *)
}.
Arguments buf {A} c.
Arguments cap {A} c.

(** [len(c)]. *)
Definition len {A} (c : chan A) : Z := Z.of_nat (length (buf c)).

(** The limits of the Go runtime when it builds a channel, on the 64-bit
    platforms where [int] has 64 bits: the largest allocation [maxAlloc]
    and the size [hchanSize] of a channel's header.  An element of
    [chan *connect] is a pointer of [ptr_size] bytes; an element of
    [chan struct{}] takes [unit_size], no byte at all. *)
Definition maxAlloc : Z := 2 ^ 48.
Definition hchanSize : Z := 96.
Definition ptr_size : Z := 8.
Definition unit_size : Z := 0.

(** [make(chan T, n)], that is the runtime's [makechan]: the call panics
    ("size out of range") when [n] is negative or when the buffer of [n]
    elements of [elemsize] bytes does not fit under [maxAlloc] beside the
    header; the product the runtime forms overflows a machine word only
    beyond that bound.  A size in range is granted: a process that runs
    out of memory is ended by the runtime, which no caller observes. *)
Definition make {A} (elemsize n : Z) : outcome (chan A) :=
  if (n <? 0) || (maxAlloc - hchanSize <? elemsize * n)
  then Panics MakechanSize
  else Done {| buf := []; cap := n |}.

(** The send case of a [select]: ready when the buffer has room. *)
Definition try_send {A} (c : chan A) (x : A) : option (chan A) :=
  if len c <? cap c then Some {| buf := buf c ++ [x]; cap := cap c |} else None.

(** The receive case of a [select]: ready when the buffer is not empty. *)
Definition try_recv {A} (c : chan A) : option (A * chan A) :=
  match buf c with
  | [] => None
  | x :: rest => Some (x, {| buf := rest; cap := cap c |})
  end.

(** ** Sessions *)

(** Modelled from the spec: the [connect] structure is declared in a file
    that is not part of the sources at hand.  A Session has a numeric
    identity, a creation timestamp and a last-observed error (nil if
    healthy); [closed] records the socket teardown done by [close]. *)
Record connect : Type := {
  id : Z;
  err : option error;
  connectedAt : Z;
  closed : bool;
}.

(** Modelled from the spec: [conn.close()] tears the transport down; the
    structure stays where it is. *)
Definition close (c : connect) : connect :=
  {| id := id c; err := err c; connectedAt := connectedAt c; closed := true |}.

(** The error field as the Session's own operations set it. *)
Definition mark (e : error) (c : connect) : connect :=
  {| id := id c; err := Some e; connectedAt := connectedAt c;
     closed := closed c |}.

(** Modelled from the spec: what one [dial(addr, num, opt)] call comes
    back with: a handshake that went through at some instant, or an
    error. *)
Inductive dial_result : Type :=
| Connected (at_ : Z)
| Refused (e : error).

(** The network decides every attempt: the position of the attempt in the
    failover loop, the address and the identity are what it is asked. *)
Definition network : Type := nat -> string -> Z -> dial_result.

(** ** The two heaps *)

Record world : Type := {
  options : gmap loc Options;
  conns : gmap loc connect;
}.

Definition set_options (h : gmap loc Options) (w : world) : world :=
  {| options := h; conns := conns w |}.

Definition set_conns (h : gmap loc connect) (w : world) : world :=
  {| options := options w; conns := h |}.

(** [&connect{...}]: a new cell at an address no Session has had. *)
Definition alloc (c : connect) (w : world) : loc * world :=
  let p := fresh (dom (conns w)) in
  (p, set_conns (<[p := c]> (conns w)) w).

(** Modelled from the spec: [dial] returns a healthy Session stamped with
    its creation time, or the error and no Session. *)
Definition dial (net : network) (attempt : nat) (addr : string) (num : Z)
    (w : world) : (option loc * option error) * world :=
  match net attempt addr num with
  | Connected t =>
      let '(p, w') :=
        alloc {| id := num; err := None; connectedAt := t; closed := false |} w in
      ((Some p, None), w')
  | Refused e => ((None, Some e), w)
  end.

(** [c.close()] through the pointer. *)
Definition close_at (p : loc) (w : world) : world :=
  set_conns (alter close p (conns w)) w.

(** ** The pool *)

Record clickhouse : Type := {
  opt : loc;
  idle : chan loc;
  open : chan unit;
  counter : Z;
}.

Definition set_idle (c : chan loc) (ch : clickhouse) : clickhouse :=
  {| opt := opt ch; idle := c; open := open ch; counter := counter ch |}.

Definition set_open (c : chan unit) (ch : clickhouse) : clickhouse :=
  {| opt := opt ch; idle := idle ch; open := c; counter := counter ch |}.

Definition set_counter (n : Z) (ch : clickhouse) : clickhouse :=
  {| opt := opt ch; idle := idle ch; open := open ch; counter := n |}.

(** [func Open(opt *Options) (driver.Conn, error)]: defaults are written
    through the pointer, the handle keeps the pointer, and the error
    result is nil on the only return path. *)
Definition Open (p : loc) (h : gmap loc Options)
    : outcome ((clickhouse * option error) * gmap loc Options) :=
  match h !! p with
  | None => Panics NilDereference
  | Some o =>
      let o' := setDefaults o in
      let h' := <[p := o']> h in
      ci ←! make ptr_size (MaxIdleConns o') ;;
      co ←! make unit_size (MaxOpenConns o') ;;
      Done (({| opt := p; idle := ci; open := co; counter := 0 |}, None), h')
  end.

(** [func (ch *clickhouse) Stats() driver.Stats]. *)
Record Stats_ : Type := {
  StatsOpen : Z;
  StatsIdle : Z;
  StatsMaxOpenConns : Z;
  StatsMaxIdleConns : Z;
}.

Definition Stats (ch : clickhouse) : Stats_ :=
  {| StatsOpen := len (open ch);
     StatsIdle := len (idle ch);
     StatsMaxOpenConns := cap (open ch);
     StatsMaxIdleConns := cap (idle ch) |}.

(** ** acquire *)

(** What the Go runtime decides during one call of [acquire]: whether the
    one-second timer has fired when each [select] is reached, which case
    it picks when the timer case and the channel case are both ready
    ([true]: the timer case), and what the network answers. *)
Record runtime : Type := {
  fired1 : bool;
  coin1 : bool;
  fired2 : bool;
  coin2 : bool;
  net : network;
}.

(** Lines 189-193, the first [select].  With a full [open] channel and
    nobody else running, the call waits until the timer fires. *)
Definition reserve (rt : runtime) (ch : clickhouse) : option clickhouse :=
  match try_send (open ch) () with
  | Some q => if fired1 rt && coin1 rt then None else Some (set_open q ch)
  | None => None
  end.

(** Lines 194-200, the second [select]; its [default] case makes it
    non-blocking. *)
Inductive second_select : Type :=
| Expired
| Reused (c : loc) (ch : clickhouse)
| Fresh.

Definition pick_idle (rt : runtime) (ch : clickhouse) : second_select :=
  match try_recv (idle ch) with
  | Some (c, q) =>
      if fired2 rt && coin2 rt then Expired else Reused c (set_idle q ch)
  | None => if fired2 rt then Expired else Fresh
  end.

(** Lines 202-207: the loop assigns the named results [conn] and [err]
    at every attempt and returns at the first nil [err]; after the last
    address the bare [return] hands back whatever the two results hold. *)
Fixpoint dial_each (nw : network) (attempt : nat) (addrs : list string)
    (num : Z) (res : option loc * option error) (w : world)
    : (option loc * option error) * world :=
  match addrs with
  | [] => (res, w)
  | addr :: rest =>
      let '(res', w') := dial nw attempt addr num w in
      match res'.2 with
      | None => (res', w')
      | Some _ => dial_each nw (S attempt) rest num res' w'
      end
  end.

(** Line 201: [atomic.AddInt64(&ch.counter, 1)] and its result. *)
Definition next_num (ch : clickhouse) : Z * clickhouse :=
  let num := int_add (counter ch) 1 in (num, set_counter num ch).

(** [func (ch *clickhouse) acquire() (conn *connect, err error)]. *)
Definition acquire (rt : runtime) (ch : clickhouse) (w : world)
    : outcome ((option loc * option error) * clickhouse * world) :=
  match reserve rt ch with
  | None => Done ((None, Some io_EOF), ch, w)
  | Some ch1 =>
      match pick_idle rt ch1 with
      | Expired => Done ((None, Some io_EOF), ch1, w)
      | Reused c ch2 => Done ((Some c, None), ch2, w)
      | Fresh =>
          let '(num, ch2) := next_num ch1 in
          match options w !! opt ch2 with
          | None => Panics NilDereference
          | Some o =>
              let '(res, w') := dial_each (net rt) 0 (Addr o) num (None, None) w in
              Done (res, ch2, w')
          end
      end
  end.

(** ** release and Close *)

(** Lines 211-214: a receive on [open] that gives up when the channel is
    empty. *)
Definition free_permit (ch : clickhouse) : clickhouse :=
  match try_recv (open ch) with
  | Some (_, q) => set_open q ch
  | None => ch
  end.

(** The guard of line 215, with Go's short-circuit [||]: the lifetime is
    read only for a Session whose error field is nil. *)
Definition worn_out (now : Z) (c : connect) (ch : clickhouse) (w : world)
    : outcome bool :=
  match err c with
  | Some _ => Done true
  | None =>
      match options w !! opt ch with
      | None => Panics NilDereference
      | Some o => Done (ConnMaxLifetime o <=? time_Since now (connectedAt c))
      end
  end.

(** Lines 215-223. *)
Definition settle (now : Z) (p : loc) (ch : clickhouse) (w : world)
    : outcome (clickhouse * world) :=
  match conns w !! p with
  | None => Panics NilDereference
  | Some c =>
      gone ←! worn_out now c ch w ;;
      if (gone : bool) then Done (ch, close_at p w)
      else match try_send (idle ch) p with
           | Some q => Done (set_idle q ch, w)
           | None => Done (ch, close_at p w)
           end
  end.

(** [func (ch *clickhouse) release(conn *connect)]; [now] is the reading
    of the clock taken by [time.Since]. *)
Definition release (now : Z) (p : loc) (ch : clickhouse) (w : world)
    : outcome (clickhouse * world) :=
  settle now p (free_permit ch) w.

(** The loop of [Close]: one receive and one [close] per queued Session,
    until the [default] case is reached on the empty channel. *)
Fixpoint drain (q : list loc) (w : world) : world :=
  match q with
  | [] => w
  | c :: rest => drain rest (close_at c w)
  end.

(** [func (ch *clickhouse) Close() error]. *)
Definition Close (ch : clickhouse) (w : world)
    : option error * clickhouse * world :=
  (None, set_idle {| buf := []; cap := cap (idle ch) |} ch,
   drain (buf (idle ch)) w).

(** ** The callers of acquire and release *)

Module Conn.

(** Modelled from the spec: the Session's own operations ([query],
    [exec], [ping]) live in a file that is not part of the sources at
    hand.  Such an operation works on the Session it is called on: it
    may change that Session (its error field above all) and gives a
    result, or it panics. *)
Definition session_method (R : Type) : Type :=
  loc -> connect -> outcome (connect * R).

(** Lines 133-175.  [ServerVersion], [Query], [Exec] and [Ping] have one
    shape: [acquire]; an error is returned at once, without [release];
    otherwise [release(conn)] is deferred and the Session's method
    gives the result.  With a nil [conn] the deferred [release] panics
    when it reads [conn.err], whatever the method did. *)
Definition with_session {R : Type} (rt : runtime) (now : Z)
    (method : session_method R) (failed : error -> R)
    (ch : clickhouse) (w : world) : outcome (R * clickhouse * world) :=
  a ←! acquire rt ch w ;;
  match a with
  | ((_, Some e), ch1, w1) => Done (failed e, ch1, w1)
  | ((None, None), _, _) => Panics NilDereference
  | ((Some p, None), ch1, w1) =>
      match conns w1 !! p with
      | None => Panics NilDereference
      | Some c =>
          m ←! method p c ;;
          r ←! release now p ch1 (set_conns (<[p := m.1]> (conns w1)) w1) ;;
          Done (m.2, r.1, r.2)
      end
  end.

(** [func (ch *clickhouse) Exec(...) error]. *)
Definition Exec (rt : runtime) (now : Z) (exec : session_method (option error))
    (ch : clickhouse) (w : world) : outcome (option error * clickhouse * world) :=
  with_session rt now exec Some ch w.

(** [func (ch *clickhouse) Ping(ctx) error]. *)
Definition Ping (rt : runtime) (now : Z) (ping : session_method (option error))
    (ch : clickhouse) (w : world) : outcome (option error * clickhouse * world) :=
  with_session rt now ping Some ch w.

(** [func (ch *clickhouse) Query(...) (rows driver.Rows, err error)]; the
    rows are whatever the Session's [query] gives. *)
Definition Query {Rows : Type} (rt : runtime) (now : Z)
    (query : session_method (option Rows * option error))
    (ch : clickhouse) (w : world)
    : outcome ((option Rows * option error) * clickhouse * world) :=
  with_session rt now query (fun e => (None, Some e)) ch w.

(** [func (ch *clickhouse) ServerVersion()]: the first result points
    into the Session, and is given as the Session's address. *)
Definition ServerVersion (rt : runtime) (now : Z) (ch : clickhouse) (w : world)
    : outcome ((option loc * option error) * clickhouse * world) :=
  with_session rt now (fun p c => Done (c, (Some p, None)))
    (fun e => (None, Some e)) ch w.

End Conn.

(** ** Goroutines sharing one pool

    The pool is used by many goroutines at once.  Every channel
    operation is one atomic step, so a run of the program is an
    interleaving of the steps below; [acquire] and [release] above are
    the runs in which one call is not interrupted.

    A goroutine inside [acquire] is either in front of the first
    [select] (it has no state yet), between the two [select]s (counted by
    [reserved]), or in the dial loop with its identity (listed in
    [dialing]).  A Session that [acquire] returned belongs to its caller
    ([out]) until the caller passes it to [release]; inside [release],
    after the permit step, it is listed in [releasing].  Callers follow
    the protocol of [Query], [Exec], [Ping] and a batch's [Send]: a
    Session is passed to [release] once per check-out. *)
Record system : Type := {
  pool : clickhouse;
  heap : world;
  reserved : nat;
  dialing : list Z;
  out : list loc;
  releasing : list loc;
}.

Definition boot (ch : clickhouse) (w : world) : system :=
  {| pool := ch; heap := w; reserved := 0; dialing := []; out := [];
     releasing := [] |}.

Inductive event : Type :=
| acquire_timeout                        (* line 190: returns nil, io.EOF *)
| acquire_reserve                        (* line 192 *)
| acquire_expire                         (* line 195: returns nil, io.EOF *)
| acquire_reuse                          (* line 197: returns the Session *)
| acquire_default                        (* lines 199-201 *)
| acquire_dialed (num : Z) (nw : network) (* lines 202-207: returns *)
| session_fails (c : loc) (e : error)    (* the holder's query sets c.err *)
| release_free (c : loc)                 (* lines 211-214 *)
| release_settle (c : loc) (now : Z)     (* lines 215-223 *)
| close_drain.                           (* lines 229-230 *)

(** Removes one occurrence; [None] when there is none. *)
Fixpoint take_out `{EqDecision A} (x : A) (l : list A) : option (list A) :=
  match l with
  | [] => None
  | y :: rest =>
      if decide (x = y) then Some rest else (y ::.) <$> take_out x rest
  end.

(** One step; [None] when the step cannot be taken in this state. *)
Definition step (e : event) (s : system) : option system :=
  match e with
  | acquire_timeout => Some s
  | acquire_reserve =>
      q ← try_send (open (pool s)) () ;
      Some {| pool := set_open q (pool s); heap := heap s;
              reserved := S (reserved s); dialing := dialing s;
              out := out s; releasing := releasing s |}
  | acquire_expire =>
      match reserved s with
      | O => None
      | S n => Some {| pool := pool s; heap := heap s; reserved := n;
                       dialing := dialing s; out := out s;
                       releasing := releasing s |}
      end
  | acquire_reuse =>
      match reserved s, try_recv (idle (pool s)) with
      | S n, Some (c, q) =>
          Some {| pool := set_idle q (pool s); heap := heap s; reserved := n;
                  dialing := dialing s; out := c :: out s;
                  releasing := releasing s |}
      | _, _ => None
      end
  | acquire_default =>
      match reserved s, buf (idle (pool s)) with
      | S n, [] =>
          let '(num, ch) := next_num (pool s) in
          Some {| pool := ch; heap := heap s; reserved := n;
                  dialing := num :: dialing s; out := out s;
                  releasing := releasing s |}
      | _, _ => None
      end
  | acquire_dialed num nw =>
      d ← take_out num (dialing s) ;
      o ← options (heap s) !! opt (pool s) ;
      let '(res, w) := dial_each nw 0 (Addr o) num (None, None) (heap s) in
      Some {| pool := pool s; heap := w; reserved := reserved s; dialing := d;
              out := match res.1 with Some c => c :: out s | None => out s end;
              releasing := releasing s |}
  | session_fails c e =>
      if decide (c ∈ out s) then
        Some {| pool := pool s;
                heap := set_conns (alter (mark e) c (conns (heap s))) (heap s);
                reserved := reserved s; dialing := dialing s; out := out s;
                releasing := releasing s |}
      else None
  | release_free c =>
      o ← take_out c (out s) ;
      Some {| pool := free_permit (pool s); heap := heap s;
              reserved := reserved s; dialing := dialing s; out := o;
              releasing := c :: releasing s |}
  | release_settle c now =>
      r ← take_out c (releasing s) ;
      match settle now c (pool s) (heap s) with
      | Done (ch, w) =>
          Some {| pool := ch; heap := w; reserved := reserved s;
                  dialing := dialing s; out := out s; releasing := r |}
      | Panics _ => None
      end
  | close_drain =>
      '(c, q) ← try_recv (idle (pool s)) ;
      Some {| pool := set_idle q (pool s); heap := close_at c (heap s);
              reserved := reserved s; dialing := dialing s; out := out s;
              releasing := releasing s |}
  end.

(** A run: the events are taken one after the other. *)
Fixpoint run (es : list event) (s : system) : option system :=
  match es with
  | [] => Some s
  | e :: rest => s' ← step e s ; run rest s'
  end.

(** ** Connection strings *)

(** [strconv.ParseBool] of Go's standard library: it takes six spellings
    as true, six as false, and reports a syntax error on everything
    else. *)
Definition ParseBool (str : string) : bool * option error :=
  if decide (str ∈ ["1"; "t"; "T"; "TRUE"; "true"; "True"]) then (true, None)
  else if decide (str ∈ ["0"; "f"; "F"; "FALSE"; "false"; "False"])
       then (false, None)
  else (false, Some (strconv_SyntaxError "ParseBool" str)).

(** What [fromDSN] reads of a parsed [*url.URL]: the host, and the
    [url.Values] that [dsn.Query()] builds. *)
Record URL : Type := {
  Host : string;
  Query : gmap string (list string);
}.

(** [url.Values.Get]: the first value of the key, or the empty string. *)
Definition Get (params : gmap string (list string)) (key : string) : string :=
  match params !! key with
  | Some (v :: _) => v
  | _ => ""
  end.

(** A [range] over a Go map visits every key once, in an order the
    runtime chooses. *)
Definition visits (params : gmap string (list string)) (keys : list string)
    : Prop :=
  keys ≡ₚ (map_to_list params).*1.

(** The body of the loop of lines 69-90, for the key [v].  The cases
    without statements are kept as they are in the source; the innermost
    [switch] looks the literal key "v" up. *)
Definition dsn_option (params : gmap string (list string)) (v : string)
    (o : Options) : Options :=
  if decide (v = "debug") then
    set_Debug (ParseBool (Get params v)).1 o
  else if decide (v = "compress") then
    if (ParseBool (Get params v)).1
    then set_Compression (Some {| Method := CompressionLZ4 |}) o
    else o
  else if decide (v = "dial_timeout") then o
  else if decide (v = "alt_hosts") then o
  else if decide (v = "secure") then o
  else if decide (v = "skip_verify") then o
  else if decide (v = "connection_open_strategy") then
    let strategy := Get params "v" in
    if decide (strategy = "random") then o
    else if decide (strategy = "in_order") then o
    else if decide (strategy = "time_random") then o
    else o
  else o.

(** [func (o *Options) fromDSN(in string) error].  [url_Parse] stands for
    [url.Parse] and [keys] is the order in which the loop visits the
    query's keys; the receiver's new contents and the error are the
    result. *)
Definition fromDSN (url_Parse : string -> URL + error) (keys : list string)
    (input : string) (o : Options) : Options * option error :=
  match url_Parse input with
  | inr e => (o, Some e)
  | inl dsn =>
      let o := set_Addr (Addr o ++ [Host dsn]) o in
      let params := Query dsn in
      let o := foldl (fun o v => dsn_option params v o) o keys in
      (setDefaults o, None)
  end.

(** ** Vocabulary of the statements *)

(** Every attempt before position [n] of the loop is refused. *)
Definition refused_before (nw : network) (num : Z) (from : nat)
    (addrs : list string) (n : nat) : Prop :=
  forall i a, (i < n)%nat -> addrs !! i = Some a ->
    exists e, nw (from + i)%nat a num = Refused e.

(** Every goroutine that is past the first [select] of [acquire] and has
    not yet gone through [release] accounts for one element of the
    [open] channel, and both channels are within their capacity. *)
Definition permits_cover (s : system) : Prop :=
  Z.of_nat (reserved s) + Z.of_nat (length (dialing s)) +
    Z.of_nat (length (out s)) <= len (open (pool s)) /\
  len (open (pool s)) <= cap (open (pool s)) /\
  len (idle (pool s)) <= cap (idle (pool s)).

(** What no step changes: the pointer to the options, the options
    themselves, and the capacities fixed by [Open]. *)
Definition same_config (s s' : system) : Prop :=
  opt (pool s') = opt (pool s) /\
  options (heap s') = options (heap s) /\
  cap (open (pool s')) = cap (open (pool s)) /\
  cap (idle (pool s')) = cap (idle (pool s)).

(** The Sessions in circulation: queued, handed out, or on their way
    through [release]. *)
Definition circulating (s : system) : list loc :=
  buf (idle (pool s)) ++ out s ++ releasing s.

(** No Session is in two places, and every Session in circulation has
    its cell. *)
Definition sessions_apart (s : system) : Prop :=
  NoDup (circulating s) /\
  (forall p, (p ∈ circulating s) -> is_Some (conns (heap s) !! p)).

(** The Session at [p] exists and is nowhere in circulation. *)
Definition retired (p : loc) (s : system) : Prop :=
  is_Some (conns (heap s) !! p) /\ (p ∉ circulating s).

(** The spellings [strconv.ParseBool] reads as true. *)
Definition true_spellings : list string := ["1"; "t"; "T"; "TRUE"; "true"; "True"].

(** How a boolean option of the query reads: absent, it leaves the
    field as it is; present, it is true exactly for the six spellings. *)
Definition dsn_flag (params : gmap string (list string)) (key : string)
    (unset : bool) : bool :=
  match params !! key with
  | Some _ => bool_decide (Get params key ∈ true_spellings)
  | None => unset
  end.

(** The configuration that a parsed connection string describes. *)
Definition described (dsn : URL) (o : Options) : Options :=
  set_Debug (dsn_flag (Query dsn) "debug" (Debug o))
    (set_Compression
       (if dsn_flag (Query dsn) "compress" false
        then Some {| Method := CompressionLZ4 |} else Compression_ o)
       (set_Addr (Addr o ++ [Host dsn]) o)).

(** The loop's effect for any order of visit. *)
Definition loop_effect (params : gmap string (list string))
    (keys : list string) (o : Options) : Options :=
  set_Debug (if decide ("debug" ∈ keys)
             then (ParseBool (Get params "debug")).1 else Debug o)
    (set_Compression
       (if decide ("compress" ∈ keys)
        then if (ParseBool (Get params "compress")).1
             then Some {| Method := CompressionLZ4 |} else Compression_ o
        else Compression_ o) o).

(** The timer stays silent during a call. *)
Definition quiet (rt : runtime) : Prop :=
  fired1 rt && coin1 rt = false /\ fired2 rt = false.

(** Two networks give the same answers up to attempt [n] of a call. *)
Definition agree_upto (nw nw' : network) (num : Z) (addrs : list string)
    (n : nat) : Prop :=
  forall i a, (i <= n)%nat -> addrs !! i = Some a -> nw i a num = nw' i a num.

(** All permits are in the [open] channel and nobody holds one: no call
    is between its two [select]s or dialing, and no Session is checked
    out. *)
Definition starved (s : system) : Prop :=
  cap (open (pool s)) <= len (open (pool s)) /\
  reserved s = O /\ dialing s = [] /\ out s = [].

(** In circulation there are only open Sessions, each in one place, and
    the idle queue holds only Sessions without an error. *)
Definition sound (s : system) : Prop :=
  sessions_apart s /\
  (forall p, (p ∈ circulating s) ->
     exists c, conns (heap s) !! p = Some c /\ closed c = false) /\
  (forall p, (p ∈ buf (idle (pool s))) ->
     exists c, conns (heap s) !! p = Some c /\ err c = None).

(** ** Example situations *)

(** No server listens: every attempt is refused. *)
Definition nobody_listens : network :=
  fun _ _ _ => Refused (DialError "connection refused").

(** Only the third attempt of a call gets through, at instant 7. *)
Definition third_answers : network :=
  fun attempt _ _ =>
    if (attempt =? 2)%nat then Connected 7
    else Refused (DialError "connection refused").

(** The timer does not fire while the call runs. *)
Definition in_time (nw : network) : runtime :=
  {| fired1 := false; coin1 := false; fired2 := false; coin2 := false;
     net := nw |}.

(** The timer fires between the two [select]s. *)
Definition too_late (nw : network) : runtime :=
  {| fired1 := false; coin1 := false; fired2 := true; coin2 := true;
     net := nw |}.

Definition one_address : Options := set_Addr ["127.0.0.1:9000"] zero_Options.

Definition three_addresses : Options :=
  set_Addr ["10.0.0.1:9000"; "10.0.0.2:9000"; "10.0.0.3:9000"] zero_Options.

Definition two_addresses : Options :=
  set_Addr ["10.0.0.1:9000"; "10.0.0.2:9000"] zero_Options.

(** The pool that [Open] builds from the defaulted zero [Options], and a
    world holding these options at address 1. *)
Definition small_pool : clickhouse :=
  {| opt := 1%positive; idle := {| buf := []; cap := 5 |};
     open := {| buf := []; cap := 10 |}; counter := 0 |}.

Definition world_of (o : Options) : world :=
  {| options := {[ 1%positive := setDefaults o ]}; conns := ∅ |}.

(** A Session, healthy or not, created at instant 0. *)
Definition session (e : option error) : connect :=
  {| id := 1; err := e; connectedAt := 0; closed := false |}.

(** [small_pool] with one Session checked out, and a world in which that
    Session lives at address 1. *)
Definition busy_pool : clickhouse :=
  set_counter 1 (set_open {| buf := [()]; cap := 10 |} small_pool).

Definition world_with (c : connect) : world :=
  {| options := {[ 1%positive := setDefaults zero_Options ]};
     conns := {[ 1%positive := c ]} |}.

(** Every attempt gets through, at instant 3. *)
Definition everyone_answers : network := fun _ _ _ => Connected 3.

(** Two callers check a Session out and the first one gives it back. *)
Definition two_in_one_back : list event :=
  [acquire_reserve; acquire_default; acquire_dialed 1 everyone_answers;
   acquire_reserve; acquire_default; acquire_dialed 2 everyone_answers;
   release_free 1%positive; release_settle 1%positive 5].

(** A caller's query fails and the caller starts to release. *)
Definition failed_query : list event :=
  [acquire_reserve; acquire_default; acquire_dialed 1 everyone_answers;
   session_fails 1%positive io_EOF; release_free 1%positive].

(** Another caller comes for a Session. *)
Definition next_caller : list event :=
  [acquire_reserve; acquire_default; acquire_dialed 2 everyone_answers].

(** [url.Parse] followed by [Query()] on the connection strings of the
    examples; the examples pass no other string. *)
Definition sample_Parse (input : string) : URL + error :=
  if decide (input = "clickhouse://127.0.0.1:9000") then
    inl {| Host := "127.0.0.1:9000"; Query := ∅ |}
  else if decide (input = "clickhouse://127.0.0.1:9000?dial_timeout=5s") then
    inl {| Host := "127.0.0.1:9000";
           Query := {[ "dial_timeout" := ["5s"] ]} |}
  else if decide (input = "clickhouse://127.0.0.1:9000?compress=yes") then
    inl {| Host := "127.0.0.1:9000"; Query := {[ "compress" := ["yes"] ]} |}
  else if decide (input = "clickhouse://127.0.0.1:9000?compress=true&debug=1") then
    inl {| Host := "127.0.0.1:9000";
           Query := {[ "compress" := ["true"]; "debug" := ["1"] ]} |}
  else inr (url_Error "not one of the examples").

(** A method that answers without touching the Session, and one that
    fails and marks it. *)
Definition answers : Conn.session_method (option error) :=
  fun _ c => Done (c, None).

Definition breaks : Conn.session_method (option error) :=
  fun _ c => Done (mark io_EOF c, Some io_EOF).

(** * Properties *)

(** ** Machine integers *)

Lemma int_wrap_id (z : Z) : is_int z -> int_wrap z = z.
Proof.
  unfold is_int, int_min, int_max, int_wrap. intros Hz.
  rewrite Z.mod_small; lia.
Qed.

Lemma int_wrap_range (z : Z) : is_int (int_wrap z).
Proof.
  unfold is_int, int_min, int_max, int_wrap.
  pose proof (Z.mod_pos_bound (z + 2 ^ 63) (2 ^ 64) ltac:(lia)). lia.
Qed.

(** ** setDefaults *)

(** Splits [setDefaults] on its six guards, with the structure opened
    into its fields. *)
Ltac defaults_cases o :=
  destruct o as [? [db us ?] ? ? ? dt ? mo mi ml]; unfold setDefaults; simpl;
  destruct (empty_string db); simpl;
  destruct (empty_string us); simpl;
  destruct (dt =? 0); simpl;
  destruct (mi <=? 0); simpl;
  destruct (mo <=? 0); simpl;
  destruct (ml =? 0); simpl.

Section SetDefaults.
Variable o : Options.

Lemma setDefaults_Database :
  Database (Auth_ (setDefaults o)) =
  if empty_string (Database (Auth_ o)) then "default"
  else Database (Auth_ o).
Proof. defaults_cases o; reflexivity. Qed.

Lemma setDefaults_Username :
  Username (Auth_ (setDefaults o)) =
  if empty_string (Username (Auth_ o)) then "default"
  else Username (Auth_ o).
Proof. defaults_cases o; reflexivity. Qed.

Lemma setDefaults_DialTimeout :
  DialTimeout (setDefaults o) =
  if DialTimeout o =? 0 then time_Second else DialTimeout o.
Proof. defaults_cases o; reflexivity. Qed.

Lemma setDefaults_MaxIdleConns :
  MaxIdleConns (setDefaults o) =
  if MaxIdleConns o <=? 0 then 5 else MaxIdleConns o.
Proof. defaults_cases o; reflexivity. Qed.

Lemma setDefaults_MaxOpenConns :
  MaxOpenConns (setDefaults o) =
  if MaxOpenConns o <=? 0 then int_add (MaxIdleConns (setDefaults o)) 5
  else MaxOpenConns o.
Proof. defaults_cases o; reflexivity. Qed.

Lemma setDefaults_ConnMaxLifetime :
  ConnMaxLifetime (setDefaults o) =
  if ConnMaxLifetime o =? 0 then time_Hour else ConnMaxLifetime o.
Proof. defaults_cases o; reflexivity. Qed.

(** The fields without a default are not touched. *)
Lemma setDefaults_frame :
  Addr (setDefaults o) = Addr o /\
  Password (Auth_ (setDefaults o)) = Password (Auth_ o) /\
  TLS (setDefaults o) = TLS o /\
  Debug (setDefaults o) = Debug o /\
  Settings (setDefaults o) = Settings o /\
  Compression_ (setDefaults o) = Compression_ o.
Proof. defaults_cases o; repeat split; reflexivity. Qed.

Lemma setDefaults_idle_positive : 1 <= MaxIdleConns (setDefaults o).
Proof. rewrite setDefaults_MaxIdleConns. case_match; lia. Qed.

(** When the sum does not leave the 64-bit range, the defaulted
    max-open is five above max-idle. *)
Lemma setDefaults_open_unset :
  MaxOpenConns o <= 0 ->
  MaxIdleConns (setDefaults o) <= int_max - 5 ->
  MaxOpenConns (setDefaults o) = MaxIdleConns (setDefaults o) + 5.
Proof.
  intros Hopen Hidle. rewrite setDefaults_MaxOpenConns.
  pose proof setDefaults_idle_positive as Hpos.
  destruct (Z.leb_spec (MaxOpenConns o) 0); [|lia].
  unfold int_add. apply int_wrap_id.
  unfold is_int, int_min, int_max in *. lia.
Qed.

Lemma setDefaults_open_set :
  0 < MaxOpenConns o -> MaxOpenConns (setDefaults o) = MaxOpenConns o.
Proof.
  intros Hopen. rewrite setDefaults_MaxOpenConns.
  destruct (Z.leb_spec (MaxOpenConns o) 0); [lia|reflexivity].
Qed.
End SetDefaults.

(** C8, as stated, fails: a caller who sets max-open 1 and max-idle 10
    gets both back unchanged, so the defaulted max-open is below
    max-idle. *)
Lemma setDefaults_open_below_idle :
  MaxOpenConns
    (setDefaults (set_MaxOpenConns 1 (set_MaxIdleConns 10 zero_Options))) = 1 /\
  MaxIdleConns
    (setDefaults (set_MaxOpenConns 1 (set_MaxIdleConns 10 zero_Options))) = 10 /\
  ~ (MaxIdleConns
       (setDefaults (set_MaxOpenConns 1 (set_MaxIdleConns 10 zero_Options)))
     <= MaxOpenConns
       (setDefaults (set_MaxOpenConns 1 (set_MaxIdleConns 10 zero_Options)))).
Proof. vm_compute. repeat split; congruence. Qed.

(** C8, amended: after [setDefaults] an empty database and an empty
    username are "default", a zero dial timeout is one second, a max-idle
    that is zero or negative is 5, a max-open that is zero or negative is
    max-idle plus 5 in 64-bit arithmetic, and a zero lifetime is one hour.
    Max-idle is at least 1 for every input.  When max-open was not set and
    max-idle is at most the largest int minus 5, max-open is max-idle + 5,
    hence at least max-idle and at least 1.  A positive max-open is kept
    as the caller gave it, whatever max-idle is. *)
Theorem setDefaults_documented_defaults (o : Options) :
  (Database (Auth_ o) = "" -> Database (Auth_ (setDefaults o)) = "default") /\
  (Username (Auth_ o) = "" -> Username (Auth_ (setDefaults o)) = "default") /\
  (DialTimeout o = 0 -> DialTimeout (setDefaults o) = time_Second) /\
  (MaxIdleConns o <= 0 -> MaxIdleConns (setDefaults o) = 5) /\
  (MaxOpenConns o <= 0 ->
   MaxOpenConns (setDefaults o) = int_add (MaxIdleConns (setDefaults o)) 5) /\
  (ConnMaxLifetime o = 0 -> ConnMaxLifetime (setDefaults o) = time_Hour) /\
  1 <= MaxIdleConns (setDefaults o) /\
  (MaxOpenConns o <= 0 -> MaxIdleConns (setDefaults o) <= int_max - 5 ->
   MaxOpenConns (setDefaults o) = MaxIdleConns (setDefaults o) + 5 /\
   MaxIdleConns (setDefaults o) <= MaxOpenConns (setDefaults o) /\
   1 <= MaxOpenConns (setDefaults o)) /\
  (0 < MaxOpenConns o ->
   MaxOpenConns (setDefaults o) = MaxOpenConns o /\
   1 <= MaxOpenConns (setDefaults o)).
Proof.
  repeat apply conj.
  - intros E. rewrite setDefaults_Database, E. reflexivity.
  - intros E. rewrite setDefaults_Username, E. reflexivity.
  - intros E. rewrite setDefaults_DialTimeout, E. reflexivity.
  - intros E. rewrite setDefaults_MaxIdleConns.
    destruct (Z.leb_spec (MaxIdleConns o) 0); [reflexivity|lia].
  - intros E. rewrite setDefaults_MaxOpenConns.
    destruct (Z.leb_spec (MaxOpenConns o) 0); [reflexivity|lia].
  - intros E. rewrite setDefaults_ConnMaxLifetime, E. reflexivity.
  - apply setDefaults_idle_positive.
  - intros Hopen Hidle.
    pose proof (setDefaults_open_unset o Hopen Hidle) as E.
    pose proof (setDefaults_idle_positive o). lia.
  - intros Hopen. rewrite (setDefaults_open_set o Hopen). lia.
Qed.

Lemma setDefaults_documented_defaults_witness :
  Database (Auth_ (setDefaults zero_Options)) = "default" /\
  Username (Auth_ (setDefaults zero_Options)) = "default" /\
  DialTimeout (setDefaults zero_Options) = 1000000000 /\
  MaxIdleConns (setDefaults zero_Options) = 5 /\
  MaxOpenConns (setDefaults zero_Options) = 10 /\
  ConnMaxLifetime (setDefaults zero_Options) = 3600000000000.
Proof.
  destruct (setDefaults_documented_defaults zero_Options)
    as (Hd & Hu & Ht & Hi & _ & Hl & _ & Ho & _).
  repeat apply conj.
  - apply Hd. reflexivity.
  - apply Hu. reflexivity.
  - apply Ht. reflexivity.
  - apply Hi. simpl. lia.
  - destruct Ho as (Ho & _); [simpl; lia|vm_compute; congruence|].
    rewrite Ho, Hi; [reflexivity|simpl; lia].
  - apply Hl. reflexivity.
Defined.

(** ** Open *)

Lemma make_Done {A} (elemsize n : Z) (c : chan A) :
  make elemsize n = Done c ->
  c = {| buf := []; cap := n |} /\ 0 <= n /\
  elemsize * n <= maxAlloc - hchanSize.
Proof.
  unfold make. destruct (Z.ltb_spec n 0); [discriminate|].
  destruct (Z.ltb_spec (maxAlloc - hchanSize) (elemsize * n)); [discriminate|].
  simpl. intros E. injection E as <-. auto.
Qed.

Lemma make_in_range {A} (elemsize n : Z) :
  0 <= n -> elemsize * n <= maxAlloc - hchanSize ->
  make elemsize n = Done (A := chan A) {| buf := []; cap := n |}.
Proof.
  intros Hn Hfit. unfold make. destruct (Z.ltb_spec n 0); [lia|].
  destruct (Z.ltb_spec (maxAlloc - hchanSize) (elemsize * n)); [lia|].
  reflexivity.
Qed.

Lemma make_out_of_range {A} (elemsize n : Z) :
  maxAlloc - hchanSize < elemsize * n ->
  make elemsize n = Panics (A := chan A) MakechanSize.
Proof.
  intros Hbig. unfold make.
  destruct (Z.ltb_spec (maxAlloc - hchanSize) (elemsize * n)); [|lia].
  rewrite orb_true_r. reflexivity.
Qed.

(** Where the idle channel fits, the defaulted max-open has not wrapped
    around and is positive. *)
Lemma setDefaults_open_positive (o : Options) :
  ptr_size * MaxIdleConns (setDefaults o) <= maxAlloc - hchanSize ->
  1 <= MaxOpenConns (setDefaults o).
Proof.
  intros Hfit. pose proof (setDefaults_idle_positive o) as Hidle.
  destruct (Z.le_gt_cases (MaxOpenConns o) 0) as [Hunset|Hset].
  - rewrite (setDefaults_open_unset o Hunset); [lia|].
    unfold ptr_size, maxAlloc, hchanSize, int_max in *. lia.
  - rewrite (setDefaults_open_set o Hset). lia.
Qed.

(** C10, as stated, fails: [Open] does not return for every Options
    value.  With max-idle 2^62 (and max-open 1), and likewise with
    max-idle at the largest int, the size of the idle channel is beyond
    what the runtime accepts for [make(chan *connect, n)]: the call
    panics and [Open] returns nothing. *)
Lemma Open_panics_on_size_out_of_range :
  Open 1%positive
    {[ 1%positive := set_MaxOpenConns 1 (set_MaxIdleConns (2 ^ 62) zero_Options) ]}
    = Panics MakechanSize /\
  Open 1%positive {[ 1%positive := set_MaxIdleConns int_max zero_Options ]}
    = Panics MakechanSize.
Proof. split; vm_compute; reflexivity. Qed.

(** C10, amended: [Open] performs no validation and has one return path,
    on which the error is nil, the handle holds the caller's pointer, and
    the structure behind that pointer has been overwritten with its
    defaulted contents; the address list and the order of max-open and
    max-idle are not looked at.  [Open] does not return for every
    Options value: it returns when the idle channel of the defaulted
    max-idle pointers is within the size the runtime accepts (its bytes
    at most [maxAlloc - hchanSize]), and it panics in [make] when it is
    not. *)
Theorem Open_defaults_through_pointer (p : loc) (h : gmap loc Options)
    (o : Options) :
  h !! p = Some o ->
  (forall r, Open p h = Done r ->
     r.1.2 = None /\ opt r.1.1 = p /\ r.2 = <[p := setDefaults o]> h /\
     r.2 !! opt r.1.1 = Some (setDefaults o)) /\
  (ptr_size * MaxIdleConns (setDefaults o) <= maxAlloc - hchanSize ->
   Open p h =
   Done (({| opt := p;
             idle := {| buf := []; cap := MaxIdleConns (setDefaults o) |};
             open := {| buf := []; cap := MaxOpenConns (setDefaults o) |};
             counter := 0 |}, None),
         <[p := setDefaults o]> h)) /\
  (maxAlloc - hchanSize < ptr_size * MaxIdleConns (setDefaults o) ->
   Open p h = Panics MakechanSize).
Proof.
  intros Hp. unfold Open. rewrite Hp. split_and!.
  - intros r.
    destruct (make ptr_size _) as [ci|]; [|discriminate]. simpl.
    destruct (make unit_size _) as [co|]; [|discriminate]. simpl.
    intros E. injection E as <-. simpl. rewrite lookup_insert_eq. auto.
  - intros Hfit.
    pose proof (setDefaults_idle_positive o) as Hidle.
    pose proof (setDefaults_open_positive o Hfit) as Hopen.
    rewrite (make_in_range ptr_size) by lia. simpl.
    rewrite (make_in_range unit_size)
      by (unfold unit_size, maxAlloc, hchanSize; lia).
    reflexivity.
  - intros Hbig. rewrite (make_out_of_range ptr_size _ Hbig). reflexivity.
Qed.

Lemma Open_defaults_through_pointer_witness :
  Open 1%positive
    {[ 1%positive := set_MaxOpenConns 1 (set_MaxIdleConns 10 zero_Options) ]} =
  Done (({| opt := 1%positive;
            idle := {| buf := []; cap := 10 |};
            open := {| buf := []; cap := 1 |};
            counter := 0 |}, None),
        {[ 1%positive :=
             setDefaults (set_MaxOpenConns 1 (set_MaxIdleConns 10 zero_Options)) ]}).
Proof.
  destruct (Open_defaults_through_pointer 1%positive
              {[ 1%positive := set_MaxOpenConns 1 (set_MaxIdleConns 10 zero_Options) ]}
              (set_MaxOpenConns 1 (set_MaxIdleConns 10 zero_Options)))
    as (_ & Hret & _).
  - reflexivity.
  - rewrite Hret; [|vm_compute; congruence].
    rewrite insert_singleton_eq. reflexivity.
Defined.

(** ** The failover loop *)

Lemma refused_before_tail nw num from a addrs n :
  refused_before nw num from (a :: addrs) (S n) ->
  refused_before nw num (S from) addrs n.
Proof.
  intros H i b Hi Hb. destruct (H (S i) b) as [e He]; [lia|exact Hb|].
  exists e. rewrite <- He. f_equal. lia.
Qed.

Lemma dial_Refused nw attempt addr num w e :
  nw attempt addr num = Refused e ->
  dial nw attempt addr num w = ((None, Some e), w).
Proof. intros E. unfold dial. rewrite E. reflexivity. Qed.

Lemma dial_Connected nw attempt addr num w t :
  nw attempt addr num = Connected t ->
  dial nw attempt addr num w =
  ((Some (fresh (dom (conns w))), None),
   set_conns (<[fresh (dom (conns w)) :=
                  {| id := num; err := None; connectedAt := t;
                     closed := false |}]> (conns w)) w).
Proof. intros E. unfold dial. rewrite E. reflexivity. Qed.

(** The first address that answers ends the loop, with a nil error. *)
Lemma dial_each_first_success nw num addrs : forall from res w n a t,
  addrs !! n = Some a ->
  refused_before nw num from addrs n ->
  nw (from + n)%nat a num = Connected t ->
  dial_each nw from addrs num res w =
  ((Some (fresh (dom (conns w))), None),
   set_conns (<[fresh (dom (conns w)) :=
                  {| id := num; err := None; connectedAt := t;
                     closed := false |}]> (conns w)) w).
Proof.
  induction addrs as [|b addrs IH]; intros from res w n a t Hn Href Hok.
  - discriminate.
  - destruct n as [|n]; simpl in Hn.
    + injection Hn as ->. simpl.
      rewrite Nat.add_0_r in Hok. rewrite (dial_Connected _ _ _ _ _ _ Hok).
      reflexivity.
    + destruct (Href O b) as [e He]; [lia|reflexivity|].
      rewrite Nat.add_0_r in He. simpl.
      rewrite (dial_Refused _ _ _ _ _ _ He). simpl.
      apply (IH (S from) _ w n a t Hn).
      * eapply refused_before_tail, Href.
      * rewrite <- Hok. f_equal. lia.
Qed.

(** When every address refuses, the loop ends with the error of the last
    attempt, no Session, and an untouched heap. *)
Lemma dial_each_all_refused nw num addrs : forall from res w a e,
  last addrs = Some a ->
  refused_before nw num from addrs (length addrs) ->
  nw (from + pred (length addrs))%nat a num = Refused e ->
  dial_each nw from addrs num res w = ((None, Some e), w).
Proof.
  induction addrs as [|b addrs IH]; intros from res w a e Hlast Href Hend.
  - discriminate.
  - destruct addrs as [|c addrs].
    + injection Hlast as ->. simpl in *.
      rewrite Nat.add_0_r in Hend. rewrite (dial_Refused _ _ _ _ _ _ Hend).
      reflexivity.
    + destruct (Href O b) as [e0 He0]; [simpl; lia|reflexivity|].
      rewrite Nat.add_0_r in He0.
      change (dial_each nw from (b :: c :: addrs) num res w)
        with (let '(res', w') := dial nw from b num w in
              match res'.2 with
              | None => (res', w')
              | Some _ => dial_each nw (S from) (c :: addrs) num res' w'
              end).
      rewrite (dial_Refused _ _ _ _ _ _ He0). simpl snd.
      apply (IH (S from) _ w a e).
      * rewrite last_cons_cons in Hlast. exact Hlast.
      * eapply refused_before_tail, Href.
      * rewrite <- Hend. f_equal. simpl. lia.
Qed.

(** ** acquire *)

Lemma reserve_Some rt ch ch1 :
  reserve rt ch = Some ch1 ->
  ch1 = set_open {| buf := buf (open ch) ++ [()]; cap := cap (open ch) |} ch /\
  len (open ch) < cap (open ch).
Proof.
  unfold reserve, try_send. destruct (Z.ltb_spec (len (open ch)) (cap (open ch)));
    [|discriminate].
  destruct (fired1 rt && coin1 rt); [discriminate|].
  intros E. injection E as <-. auto.
Qed.

Lemma len_snoc {A} (q : list A) (x : A) (n : Z) :
  len {| buf := q ++ [x]; cap := n |} = len {| buf := q; cap := n |} + 1.
Proof. unfold len. simpl. rewrite length_app. simpl. lia. Qed.

Lemma pick_idle_Fresh rt ch : pick_idle rt ch = Fresh -> buf (idle ch) = [].
Proof.
  unfold pick_idle, try_recv. destruct (buf (idle ch)); [reflexivity|].
  destruct (fired2 rt && coin2 rt); discriminate.
Qed.

Lemma pick_idle_Reused rt ch c ch2 :
  pick_idle rt ch = Reused c ch2 ->
  exists q, buf (idle ch) = c :: q /\
            ch2 = set_idle {| buf := q; cap := cap (idle ch) |} ch.
Proof.
  unfold pick_idle, try_recv. destruct (buf (idle ch)) as [|x q].
  - destruct (fired2 rt); discriminate.
  - destruct (fired2 rt && coin2 rt); [discriminate|].
    intros E. injection E as -> <-. eauto.
Qed.

(** Once the permit is taken, every return path of [acquire] leaves it
    in the [open] channel. *)
Lemma acquire_open_after_reserve rt ch ch1 w r ch' w' :
  reserve rt ch = Some ch1 ->
  acquire rt ch w = Done (r, ch', w') ->
  len (open ch') = len (open ch) + 1 /\ cap (open ch') = cap (open ch).
Proof.
  intros Hres. unfold acquire. rewrite Hres.
  apply reserve_Some in Hres as [-> _].
  destruct (pick_idle rt _) as [|c ch2|] eqn:Hpick.
  - intros E. injection E as _ <- _. simpl. split; [apply len_snoc|reflexivity].
  - apply pick_idle_Reused in Hpick as (q & _ & ->).
    intros E. injection E as _ <- _. simpl. split; [apply len_snoc|reflexivity].
  - unfold next_num. simpl. destruct (options w !! opt ch); [|discriminate].
    destruct (dial_each _ _ _ _ _ _) as [res w1].
    intros E. injection E as _ <- _. simpl. split; [apply len_snoc|reflexivity].
Qed.

(** C1 (the code does not do what the claim says): when [acquire]
    returns an error after it has reserved a permit, be it the error of
    the last dial attempt or [io.EOF] from the timer case of the second
    [select], the permit is still in the [open] channel: the count of
    open permits is one above what it was before the call. *)
Theorem acquire_error_keeps_permit (rt : runtime) (ch ch1 ch' : clickhouse)
    (w w' : world) (conn : option loc) (e : error) :
  reserve rt ch = Some ch1 ->
  acquire rt ch w = Done ((conn, Some e), ch', w') ->
  len (open ch') = len (open ch) + 1.
Proof.
  intros Hres Hacq. eapply acquire_open_after_reserve; eassumption.
Qed.

Lemma acquire_error_keeps_permit_witness :
  (exists ch' w',
     acquire (in_time nobody_listens) small_pool (world_of one_address) =
     Done ((None, Some (DialError "connection refused")), ch', w') /\
     len (open small_pool) = 0 /\ len (open ch') = 1) /\
  (exists ch' w',
     acquire (too_late nobody_listens) small_pool (world_of one_address) =
     Done ((None, Some io_EOF), ch', w') /\
     len (open small_pool) = 0 /\ len (open ch') = 1).
Proof.
  split.
  - exists (set_counter 1 (set_open {| buf := [()]; cap := 10 |} small_pool)),
      (world_of one_address).
    split; [vm_compute; reflexivity|]. split; [reflexivity|].
    apply (acquire_error_keeps_permit (in_time nobody_listens) small_pool
             (set_open {| buf := [()]; cap := 10 |} small_pool) _
             (world_of one_address) (world_of one_address) None
             (DialError "connection refused")).
    + vm_compute. reflexivity.
    + vm_compute. reflexivity.
  - exists (set_open {| buf := [()]; cap := 10 |} small_pool),
      (world_of one_address).
    split; [vm_compute; reflexivity|]. split; [reflexivity|].
    apply (acquire_error_keeps_permit (too_late nobody_listens) small_pool
             (set_open {| buf := [()]; cap := 10 |} small_pool) _
             (world_of one_address) (world_of one_address) None io_EOF).
    + vm_compute. reflexivity.
    + vm_compute. reflexivity.
Defined.

(** C3 (the code does not do what the claim says): with an empty address
    list the loop body never runs, so an [acquire] that reaches the dial
    loop returns with both results nil: no Session and no error. *)
Theorem acquire_empty_address_list (rt : runtime) (ch ch1 : clickhouse)
    (w : world) (o : Options) :
  reserve rt ch = Some ch1 ->
  pick_idle rt ch1 = Fresh ->
  options w !! opt ch = Some o ->
  Addr o = [] ->
  acquire rt ch w =
  Done ((None, None), set_counter (int_add (counter ch) 1) ch1, w).
Proof.
  intros Hres Hpick Hopt Haddr. unfold acquire. rewrite Hres, Hpick.
  apply reserve_Some in Hres as [-> _]. unfold next_num. simpl.
  rewrite Hopt, Haddr. reflexivity.
Qed.

Lemma acquire_empty_address_list_witness :
  Open 1%positive {[ 1%positive := zero_Options ]} =
    Done ((small_pool, None), options (world_of zero_Options)) /\
  acquire (in_time nobody_listens) small_pool (world_of zero_Options) =
    Done ((None, None),
          set_counter 1 (set_open {| buf := [()]; cap := 10 |} small_pool),
          world_of zero_Options).
Proof.
  split; [vm_compute; reflexivity|].
  apply (acquire_empty_address_list (in_time nobody_listens) small_pool
           (set_open {| buf := [()]; cap := 10 |} small_pool)
           (world_of zero_Options) (setDefaults zero_Options)).
  - vm_compute. reflexivity.
  - vm_compute. reflexivity.
  - vm_compute. reflexivity.
  - reflexivity.
Defined.

(** C6: an [acquire] that has its permit and finds no idle Session dials
    the configured addresses in their order.  The first address that
    answers, all addresses before it having refused, gives the result: a
    new healthy Session carrying the call's identity, and a nil error.
    When every address refuses, the result is no Session and the error
    of the attempt against the last address. *)
Theorem acquire_failover (rt : runtime) (ch ch1 : clickhouse) (w : world)
    (o : Options) :
  reserve rt ch = Some ch1 ->
  pick_idle rt ch1 = Fresh ->
  options w !! opt ch = Some o ->
  (forall n a t,
     Addr o !! n = Some a ->
     refused_before (net rt) (int_add (counter ch) 1) 0 (Addr o) n ->
     net rt n a (int_add (counter ch) 1) = Connected t ->
     acquire rt ch w =
     Done ((Some (fresh (dom (conns w))), None),
           set_counter (int_add (counter ch) 1) ch1,
           set_conns (<[fresh (dom (conns w)) :=
                          {| id := int_add (counter ch) 1; err := None;
                             connectedAt := t; closed := false |}]> (conns w))
                     w)) /\
  (forall a e,
     last (Addr o) = Some a ->
     refused_before (net rt) (int_add (counter ch) 1) 0 (Addr o)
       (length (Addr o)) ->
     net rt (pred (length (Addr o))) a (int_add (counter ch) 1) = Refused e ->
     acquire rt ch w =
     Done ((None, Some e), set_counter (int_add (counter ch) 1) ch1, w)).
Proof.
  intros Hres Hpick Hopt. unfold acquire. rewrite Hres, Hpick.
  apply reserve_Some in Hres as [-> _]. unfold next_num. simpl.
  rewrite Hopt. split.
  - intros n a t Hn Href Hok.
    rewrite (dial_each_first_success _ _ _ 0%nat (None, None) w n a t Hn Href Hok).
    reflexivity.
  - intros a e Hlast Href Hend.
    rewrite (dial_each_all_refused _ _ _ 0%nat (None, None) w a e Hlast Href Hend).
    reflexivity.
Qed.

Lemma acquire_failover_witness :
  acquire (in_time third_answers) small_pool (world_of three_addresses) =
    Done ((Some 1%positive, None),
          set_counter 1 (set_open {| buf := [()]; cap := 10 |} small_pool),
          set_conns {[ 1%positive := {| id := 1; err := None; connectedAt := 7;
                                        closed := false |} ]}
                    (world_of three_addresses)) /\
  acquire (in_time nobody_listens) small_pool (world_of two_addresses) =
    Done ((None, Some (DialError "connection refused")),
          set_counter 1 (set_open {| buf := [()]; cap := 10 |} small_pool),
          world_of two_addresses).
Proof.
  split.
  - refine (proj1 (acquire_failover (in_time third_answers) small_pool
             (set_open {| buf := [()]; cap := 10 |} small_pool)
             (world_of three_addresses) (setDefaults three_addresses)
             _ _ _) 2%nat "10.0.0.3:9000" 7 _ _ _);
      try (vm_compute; reflexivity).
    intros i a Hi _. exists (DialError "connection refused").
    destruct i as [|[|i]]; [reflexivity|reflexivity|lia].
  - refine (proj2 (acquire_failover (in_time nobody_listens) small_pool
             (set_open {| buf := [()]; cap := 10 |} small_pool)
             (world_of two_addresses) (setDefaults two_addresses)
             _ _ _) "10.0.0.2:9000" (DialError "connection refused") _ _ _);
      try (vm_compute; reflexivity).
    intros i a _ _. exists (DialError "connection refused"). reflexivity.
Defined.

(** ** release *)

Lemma free_permit_len ch :
  len (open (free_permit ch)) = Z.max 0 (len (open ch) - 1).
Proof.
  unfold free_permit, try_recv, len.
  destruct (buf (open ch)) as [|[] q] eqn:E; simpl; rewrite ?E; simpl; lia.
Qed.

Lemma free_permit_frame ch :
  opt (free_permit ch) = opt ch /\
  idle (free_permit ch) = idle ch /\
  counter (free_permit ch) = counter ch /\
  cap (open (free_permit ch)) = cap (open ch).
Proof.
  unfold free_permit, try_recv.
  destruct (buf (open ch)) as [|[] q]; simpl; auto.
Qed.

Lemma close_at_lookup p w c :
  conns w !! p = Some c ->
  conns (close_at p w) !! p = Some (close c) /\
  (forall q, q ≠ p -> conns (close_at p w) !! q = conns w !! q) /\
  options (close_at p w) = options w.
Proof.
  intros Hp. unfold close_at. simpl. repeat split.
  - rewrite lookup_alter_eq, Hp. reflexivity.
  - intros q Hq. apply lookup_alter_ne. congruence.
Qed.



(** ** Runs of the pool *)

Lemma take_out_Some `{EqDecision A} (x : A) (l l' : list A) :
  take_out x l = Some l' -> l ≡ₚ x :: l'.
Proof.
  revert l'. induction l as [|y l IH]; intros l'; simpl; [discriminate|].
  destruct (decide (x = y)) as [->|Hne].
  - intros E. injection E as ->. reflexivity.
  - destruct (take_out x l) as [r|]; [|discriminate]. simpl.
    intros E. injection E as <-. rewrite (IH r eq_refl). apply Permutation_swap.
Qed.

Lemma take_out_length `{EqDecision A} (x : A) (l l' : list A) :
  take_out x l = Some l' -> length l = S (length l').
Proof. intros H. apply take_out_Some in H. rewrite H. reflexivity. Qed.

Lemma take_out_elem_of `{EqDecision A} (x : A) (l : list A) :
  x ∈ l -> is_Some (take_out x l).
Proof.
  induction l as [|y l IH]; [inversion 1|]. simpl.
  destruct (decide (x = y)); [eauto|].
  intros Hin. apply elem_of_cons in Hin as [?|Hin]; [congruence|].
  destruct (IH Hin) as [r ->]. eauto.
Qed.

Lemma dial_each_frame nw num addrs : forall from res w r w',
  dial_each nw from addrs num res w = (r, w') ->
  options w' = options w /\
  ((r.1 = res.1 \/ r.1 = None) /\ w' = w \/
   exists c, r.1 = Some (fresh (dom (conns w))) /\
             w' = set_conns (<[fresh (dom (conns w)) := c]> (conns w)) w).
Proof.
  induction addrs as [|a addrs IH]; intros from res w r w'; simpl.
  - intros E. injection E as <- <-. auto.
  - unfold dial. destruct (nw from a num) as [t|e]; simpl.
    + intros E. injection E as <- <-. split; [reflexivity|]. right. eauto.
    + intros E. apply IH in E as [Ho [[[Hr|Hr] Hw]|Hnew]]; auto.
Qed.

Lemma settle_Done now p ch w ch' w' :
  settle now p ch w = Done (ch', w') ->
  opt ch' = opt ch /\ open ch' = open ch /\ counter ch' = counter ch /\
  cap (idle ch') = cap (idle ch) /\ options w' = options w /\
  dom (conns w') = dom (conns w) /\
  (idle ch' = idle ch /\ w' = close_at p w \/
   len (idle ch) < cap (idle ch) /\
   buf (idle ch') = buf (idle ch) ++ [p] /\ w' = w /\
   exists c, conns w !! p = Some c /\ err c = None).
Proof.
  unfold settle, worn_out, try_send.
  destruct (conns w !! p) as [c|] eqn:Hp; [|discriminate].
  assert (dom (conns (close_at p w)) = dom (conns w)) as Hdom
    by (unfold close_at; simpl; apply dom_alter_L).
  destruct (err c) eqn:He; simpl.
  - intros E. injection E as <- <-. split_and!; auto.
  - destruct (options w !! opt ch); [|discriminate]. simpl.
    destruct (ConnMaxLifetime _ <=? _).
    + intros E. injection E as <- <-. split_and!; auto.
    + destruct (Z.ltb_spec (len (idle ch)) (cap (idle ch))).
      * intros E. injection E as <- <-. split_and!; auto.
        right. split_and!; eauto.
      * intros E. injection E as <- <-. split_and!; auto.
Qed.

Lemma len_cons {A} (x : A) (q : list A) (n m : Z) :
  len {| buf := x :: q; cap := n |} = len {| buf := q; cap := m |} + 1.
Proof. unfold len. simpl. lia. Qed.

Lemma len_eq {A} (c : chan A) : len c = Z.of_nat (length (buf c)).
Proof. reflexivity. Qed.

Lemma step_permits_cover e s s' :
  step e s = Some s' -> permits_cover s -> permits_cover s'.
Proof.
  unfold permits_cover. intros Hstep (Hsum & Hopen & Hidle).
  destruct s as [ch w n ds os rs]. simpl in *.
  destruct e; simpl in Hstep.
  - simplify_eq. auto.
  - unfold try_send in Hstep.
    destruct (Z.ltb_spec (len (open ch)) (cap (open ch))); simplify_option_eq.
    rewrite len_snoc. unfold len in *. simpl. lia.
  - destruct n; simplify_eq/=. lia.
  - unfold try_recv in Hstep. destruct n; [discriminate|].
    destruct (buf (idle ch)) as [|c q] eqn:Hq; simplify_eq/=.
    unfold len in *. rewrite Hq in *. simpl in *. lia.
  - destruct n; [discriminate|].
    destruct (buf (idle ch)) as [|c q] eqn:Hq; simplify_eq/=.
    unfold len in *. simpl in *. lia.
  - destruct (take_out num ds) as [d|] eqn:Hd; [|discriminate]. simpl in Hstep.
    destruct (options w !! opt ch); [|discriminate]. simpl in Hstep.
    destruct (dial_each _ _ _ _ _ _) as [res w1]. simplify_eq/=.
    apply take_out_length in Hd. rewrite Hd in Hsum.
    destruct (res.1); simpl; lia.
  - case_decide; simplify_eq/=. auto.
  - destruct (take_out c os) as [o|] eqn:Ho; [|discriminate]. simplify_eq/=.
    apply take_out_length in Ho. rewrite Ho in Hsum.
    destruct (free_permit_frame ch) as (_ & -> & _ & ->).
    rewrite free_permit_len. lia.
  - destruct (take_out c rs) as [r|] eqn:Hr; [|discriminate]. simpl in Hstep.
    destruct (settle now c ch w) as [[ch1 w1]|] eqn:Hs; [|discriminate].
    simplify_eq/=.
    apply settle_Done in Hs as (_ & -> & _ & Hcap & _ & _ & Hcase).
    split_and!; try assumption. rewrite Hcap.
    destruct Hcase as [[-> _]|(Hroom & Hbuf & _)]; [assumption|].
    unfold len in *. rewrite Hbuf, length_app. simpl. lia.
  - unfold try_recv in Hstep.
    destruct (buf (idle ch)) as [|c q] eqn:Hq; simplify_eq/=.
    unfold len in *. rewrite Hq in *. simpl in *. lia.
Qed.

Lemma step_same_config e s s' : step e s = Some s' -> same_config s s'.
Proof.
  unfold same_config. intros Hstep.
  destruct s as [ch w n ds os rs]. simpl in *.
  destruct e; simpl in Hstep.
  - simplify_eq. auto.
  - unfold try_send in Hstep. case_match; simplify_option_eq. auto.
  - destruct n; simplify_eq/=. auto.
  - unfold try_recv in Hstep. destruct n; [discriminate|].
    destruct (buf (idle ch)); simplify_eq/=. auto.
  - destruct n; [discriminate|]. destruct (buf (idle ch)); simplify_eq/=. auto.
  - destruct (take_out num ds) as [d|] eqn:Hd; [|discriminate]. simpl in Hstep.
    destruct (options w !! opt ch); [|discriminate]. simpl in Hstep.
    destruct (dial_each _ _ _ _ _ _) as [res w1] eqn:Hdial. simplify_eq/=.
    apply dial_each_frame in Hdial as [-> _]. auto.
  - case_decide; simplify_eq/=. auto.
  - destruct (take_out c os) as [o|] eqn:Ho; [|discriminate]. simplify_eq/=.
    destruct (free_permit_frame ch) as (-> & -> & _ & ->). auto.
  - destruct (take_out c rs) as [r|] eqn:Hr; [|discriminate]. simpl in Hstep.
    destruct (settle now c ch w) as [[ch1 w1]|] eqn:Hs; [|discriminate].
    simplify_eq/=.
    apply settle_Done in Hs as (-> & -> & _ & -> & -> & _). auto.
  - unfold try_recv in Hstep.
    destruct (buf (idle ch)) as [|c q] eqn:Hq; simplify_eq/=. auto.
Qed.

Lemma step_circulation e s s' :
  step e s = Some s' ->
  (circulating s' ≡ₚ circulating s /\
   dom (conns (heap s')) = dom (conns (heap s))) \/
  (exists c, circulating s ≡ₚ c :: circulating s' /\
   dom (conns (heap s')) = dom (conns (heap s))) \/
  (circulating s' ≡ₚ fresh (dom (conns (heap s))) :: circulating s /\
   dom (conns (heap s')) = {[fresh (dom (conns (heap s)))]} ∪ dom (conns (heap s))).
Proof.
  unfold circulating. intros Hstep.
  destruct s as [ch w n ds os rs]. simpl in *.
  destruct e; simpl in Hstep.
  - simplify_eq. auto.
  - unfold try_send in Hstep. case_match; simplify_option_eq. auto.
  - destruct n; simplify_eq/=. auto.
  - unfold try_recv in Hstep. destruct n; [discriminate|].
    destruct (buf (idle ch)) as [|c q] eqn:Hq; simplify_eq/=.
    left. split; [|reflexivity]. symmetry. apply Permutation_middle.
  - destruct n; [discriminate|]. destruct (buf (idle ch)) eqn:Hq; simplify_eq/=.
    rewrite Hq. auto.
  - destruct (take_out num ds) as [d|] eqn:Hd; [|discriminate]. simpl in Hstep.
    destruct (options w !! opt ch); [|discriminate]. simpl in Hstep.
    destruct (dial_each _ _ _ _ _ _) as [res w1] eqn:Hdial. simplify_eq/=.
    apply dial_each_frame in Hdial as [_ [[[Hr|Hr] ->]|(c & Hr & ->)]];
      rewrite Hr; simpl; auto.
    right. right. split; [|apply dom_insert_L].
    symmetry. apply Permutation_middle.
  - case_decide; simplify_eq/=. left. split; [reflexivity|apply dom_alter_L].
  - destruct (take_out c os) as [o|] eqn:Ho; [|discriminate]. simplify_eq/=.
    destruct (free_permit_frame ch) as (_ & -> & _).
    apply take_out_Some in Ho. left. split; [|reflexivity].
    rewrite Ho. simpl.
    rewrite <- !Permutation_middle. reflexivity.
  - destruct (take_out c rs) as [r|] eqn:Hr; [|discriminate]. simpl in Hstep.
    destruct (settle now c ch w) as [[ch1 w1]|] eqn:Hs; [|discriminate].
    simplify_eq/=. apply take_out_Some in Hr.
    apply settle_Done in Hs as (_ & _ & _ & _ & _ & Hdom & Hcase).
    destruct Hcase as [[-> _]|(_ & -> & _)].
    + right. left. exists c. split; [|exact Hdom].
      rewrite Hr. rewrite <- !Permutation_middle. reflexivity.
    + left. split; [|exact Hdom]. rewrite Hr.
      rewrite <- !(assoc_L (++)). simpl.
      rewrite <- !Permutation_middle. reflexivity.
  - unfold try_recv in Hstep.
    destruct (buf (idle ch)) as [|c q] eqn:Hq; simplify_eq/=.
    right. left. exists c. split; [reflexivity|apply dom_alter_L].
Qed.

Lemma step_sessions_apart e s s' :
  step e s = Some s' -> sessions_apart s -> sessions_apart s'.
Proof.
  unfold sessions_apart. intros Hstep [Hnd Hin].
  destruct (step_circulation e s s' Hstep)
    as [[Hp Hd]|[(c & Hp & Hd)|[Hp Hd]]].
  - split; [rewrite Hp; exact Hnd|].
    intros p Hpin. apply elem_of_dom. rewrite Hd. apply elem_of_dom, Hin.
    rewrite <- Hp. exact Hpin.
  - rewrite Hp in Hnd. apply NoDup_cons in Hnd as [_ Hnd]. split; [exact Hnd|].
    intros p Hpin. apply elem_of_dom. rewrite Hd. apply elem_of_dom, Hin.
    rewrite Hp. apply elem_of_cons. auto.
  - split.
    + rewrite Hp. apply NoDup_cons. split; [|exact Hnd].
      intros Hold. apply Hin, elem_of_dom in Hold. exact (is_fresh _ Hold).
    + intros p Hpin. apply elem_of_dom. rewrite Hd.
      rewrite Hp in Hpin. apply elem_of_cons in Hpin as [->|Hpin].
      * apply elem_of_union. left. apply elem_of_singleton. reflexivity.
      * apply Hin, elem_of_dom in Hpin. apply elem_of_union. auto.
Qed.

Lemma step_retired p e s s' :
  step e s = Some s' -> retired p s -> retired p s'.
Proof.
  unfold retired. intros Hstep [Hcell Hout]. apply elem_of_dom in Hcell.
  destruct (step_circulation e s s' Hstep)
    as [[Hp Hd]|[(c & Hp & Hd)|[Hp Hd]]].
  - split; [apply elem_of_dom; rewrite Hd; exact Hcell|].
    rewrite Hp. exact Hout.
  - split; [apply elem_of_dom; rewrite Hd; exact Hcell|].
    intros Hin. apply Hout. rewrite Hp. apply elem_of_cons. auto.
  - split; [apply elem_of_dom; rewrite Hd; apply elem_of_union; auto|].
    rewrite Hp. intros Hin. apply elem_of_cons in Hin as [->|Hin].
    + exact (is_fresh _ Hcell).
    + exact (Hout Hin).
Qed.

Lemma run_app es1 es2 s :
  run (es1 ++ es2) s = s1 ← run es1 s ; run es2 s1.
Proof.
  revert s. induction es1 as [|e es1 IH]; intros s; simpl; [reflexivity|].
  destruct (step e s); simpl; [apply IH|reflexivity].
Qed.

(** A property kept by every step is kept by every run. *)
Lemma run_preserves (P : system -> Prop) :
  (forall e s s', step e s = Some s' -> P s -> P s') ->
  forall es s s', run es s = Some s' -> P s -> P s'.
Proof.
  intros Hstep es. induction es as [|e es IH]; intros s s'; simpl.
  - intros E. injection E as <-. auto.
  - destruct (step e s) as [s1|] eqn:H1; [|discriminate]. simpl.
    intros Hrun HP. eapply IH; [exact Hrun|]. eapply Hstep; eassumption.
Qed.

Lemma run_same_config es : forall s s', run es s = Some s' -> same_config s s'.
Proof.
  induction es as [|e es IH]; intros s s'; simpl.
  - intros E. injection E as <-. unfold same_config. auto.
  - destruct (step e s) as [s1|] eqn:H1; [|discriminate]. simpl. intros Hrun.
    apply step_same_config in H1 as (E1 & E2 & E3 & E4).
    apply IH in Hrun as (F1 & F2 & F3 & F4).
    unfold same_config. rewrite F1, F2, F3, F4. auto.
Qed.

(** ** The pool's bounds and the fate of failed Sessions *)

Lemma Open_Done p h ch e h' :
  Open p h = Done ((ch, e), h') ->
  exists o,
    h !! p = Some o /\ h' = <[p := setDefaults o]> h /\ e = None /\
    ch = {| opt := p;
            idle := {| buf := []; cap := MaxIdleConns (setDefaults o) |};
            open := {| buf := []; cap := MaxOpenConns (setDefaults o) |};
            counter := 0 |} /\
    0 <= MaxIdleConns (setDefaults o) /\ 0 <= MaxOpenConns (setDefaults o).
Proof.
  unfold Open. destruct (h !! p) as [o|]; [|discriminate].
  destruct (make ptr_size _) as [ci|] eqn:Hi; [|discriminate]. simpl.
  destruct (make unit_size _) as [co|] eqn:Ho; [|discriminate]. simpl.
  apply make_Done in Hi as (-> & Hi & _). apply make_Done in Ho as (-> & Ho & _).
  intros E. injection E as <- <- <-. exists o. split_and!; auto.
Qed.

Lemma boot_permits_cover ch w :
  buf (open ch) = [] -> buf (idle ch) = [] ->
  0 <= cap (open ch) -> 0 <= cap (idle ch) ->
  permits_cover (boot ch w).
Proof.
  intros Ho Hi Hco Hci. unfold permits_cover, boot, len. simpl.
  rewrite Ho, Hi. simpl. lia.
Qed.

Lemma boot_sessions_apart ch w :
  buf (idle ch) = [] -> sessions_apart (boot ch w).
Proof.
  intros Hi. unfold sessions_apart, circulating, boot. simpl. rewrite Hi. simpl.
  split; [apply NoDup_nil_2|]. intros p Hp. inversion Hp.
Qed.

(** C2: in every state that a pool built by [Open] reaches, through any
    interleaving of the steps of [acquire], [release], [Close] and of
    Sessions failing in their holders' hands, the number of Sessions
    checked out is at most the configured max-open and the idle queue
    holds at most the configured max-idle Sessions. *)
Theorem pool_stays_within_bounds (p : loc) (h h' : gmap loc Options)
    (ch : clickhouse) (e : option error) (cs : gmap loc connect)
    (es : list event) (s : system) :
  Open p h = Done ((ch, e), h') ->
  run es (boot ch {| options := h'; conns := cs |}) = Some s ->
  exists o,
    h' !! p = Some o /\
    options (heap s) !! opt (pool s) = Some o /\
    MaxOpenConns o = cap (open (pool s)) /\
    MaxIdleConns o = cap (idle (pool s)) /\
    Z.of_nat (length (out s)) <= MaxOpenConns o /\
    len (idle (pool s)) <= MaxIdleConns o.
Proof.
  intros Hopen Hrun.
  apply Open_Done in Hopen as (o & Hp & -> & -> & -> & Hidle & Hopen).
  pose proof (run_same_config _ _ _ Hrun) as (Ept & Eopts & Ecapo & Ecapi).
  assert (permits_cover s) as (Hsum & Hlo & Hli).
  { eapply (run_preserves permits_cover step_permits_cover); [exact Hrun|].
    apply boot_permits_cover; simpl; auto. }
  simpl in *. exists (setDefaults o).
  rewrite Ept, Eopts, Ecapo, Ecapi. rewrite lookup_insert_eq.
  split_and!; auto; lia.
Qed.

Lemma pool_stays_within_bounds_witness :
  exists s,
    run two_in_one_back (boot small_pool (world_of one_address)) = Some s /\
    out s = [2%positive] /\ buf (idle (pool s)) = [1%positive] /\
    Z.of_nat (length (out s)) <= 10 /\ len (idle (pool s)) <= 5.
Proof.
  assert (Open 1%positive {[ 1%positive := one_address ]} =
          Done ((small_pool, None), options (world_of one_address))) as Hopen
    by (vm_compute; reflexivity).
  destruct (run two_in_one_back (boot small_pool (world_of one_address)))
    as [s|] eqn:Hrun; [|vm_compute in Hrun; discriminate].
  destruct (pool_stays_within_bounds _ _ _ _ _ ∅ _ s Hopen Hrun)
    as (o & Ho & _ & _ & _ & Hout & Hidle).
  vm_compute in Ho. injection Ho as <-.
  vm_compute in Hrun. injection Hrun as <-.
  eexists. split; [reflexivity|]. split; [reflexivity|].
  split; [reflexivity|]. split; [exact Hout|exact Hidle].
Defined.

Lemma settle_errored now c ch w cc :
  conns w !! c = Some cc -> is_Some (err cc) ->
  settle now c ch w = Done (ch, close_at c w).
Proof.
  intros Hc [e He]. unfold settle, worn_out. rewrite Hc, He. reflexivity.
Qed.

(** C4: when [release] inspects a Session whose error field is set, it
    closes the Session and leaves the idle queue as it was; and in every
    state the pool reaches afterwards that Session is neither in the idle
    queue nor in a caller's hands, so no [acquire] has handed it out. *)
Theorem errored_session_never_returns (p : loc) (h h' : gmap loc Options)
    (ch : clickhouse) (e : option error) (cs : gmap loc connect)
    (before after : list event) (s s1 s2 : system) (c : loc) (cc : connect)
    (now : Z) :
  Open p h = Done ((ch, e), h') ->
  run before (boot ch {| options := h'; conns := cs |}) = Some s ->
  conns (heap s) !! c = Some cc ->
  is_Some (err cc) ->
  step (release_settle c now) s = Some s1 ->
  run after s1 = Some s2 ->
  conns (heap s1) !! c = Some (close cc) /\
  idle (pool s1) = idle (pool s) /\
  (c ∉ buf (idle (pool s2))) /\
  (c ∉ out s2).
Proof.
  intros Hopen Hrun Hc Herr Hstep Hafter.
  apply Open_Done in Hopen as (o & _ & -> & -> & -> & _ & _).
  assert (sessions_apart s) as [Hnd _].
  { eapply (run_preserves sessions_apart step_sessions_apart); [exact Hrun|].
    apply boot_sessions_apart. reflexivity. }
  simpl in Hstep.
  destruct (take_out c (releasing s)) as [r|] eqn:Hr; [|discriminate].
  simpl in Hstep. rewrite (settle_errored _ _ _ _ _ Hc Herr) in Hstep.
  injection Hstep as <-. simpl.
  destruct (close_at_lookup c (heap s) cc Hc) as (Hclosed & _ & _).
  assert (retired c {| pool := pool s; heap := close_at c (heap s);
                       reserved := reserved s; dialing := dialing s;
                       out := out s; releasing := r |}) as Hret.
  { split; [exists (close cc); exact Hclosed|].
    unfold circulating in *. simpl.
    apply take_out_Some in Hr. rewrite Hr in Hnd.
    rewrite <- !Permutation_middle in Hnd.
    apply NoDup_cons in Hnd as [Hnotin _]. exact Hnotin. }
  apply (run_preserves (retired c) (step_retired c) _ _ _ Hafter) in Hret
    as [_ Hnotin].
  unfold circulating in Hnotin. rewrite !not_elem_of_app in Hnotin.
  destruct Hnotin as (Hi & Ho & _). auto.
Qed.

Lemma errored_session_never_returns_witness :
  exists s s1 s2,
    run failed_query (boot small_pool (world_of one_address)) = Some s /\
    step (release_settle 1%positive 5) s = Some s1 /\
    run next_caller s1 = Some s2 /\
    (closed <$> conns (heap s1) !! 1%positive) = Some true /\
    buf (idle (pool s1)) = [] /\
    out s2 = [2%positive] /\
    (1%positive ∉ buf (idle (pool s2))) /\ (1%positive ∉ out s2).
Proof.
  assert (Open 1%positive {[ 1%positive := one_address ]} =
          Done ((small_pool, None), options (world_of one_address))) as Hopen
    by (vm_compute; reflexivity).
  destruct (run failed_query (boot small_pool (world_of one_address)))
    as [s|] eqn:Hrun; [|vm_compute in Hrun; discriminate].
  destruct (step (release_settle 1%positive 5) s) as [s1|] eqn:Hstep;
    [|vm_compute in Hrun; injection Hrun as <-;
      vm_compute in Hstep; discriminate].
  destruct (run next_caller s1) as [s2|] eqn:Hafter;
    [|vm_compute in Hrun; injection Hrun as <-;
      vm_compute in Hstep; injection Hstep as <-;
      vm_compute in Hafter; discriminate].
  assert (conns (heap s) !! 1%positive =
          Some (mark io_EOF {| id := 1; err := None; connectedAt := 3;
                               closed := false |})) as Hcell
    by (vm_compute in Hrun; injection Hrun as <-; vm_compute; reflexivity).
  destruct (errored_session_never_returns _ _ _ _ _ ∅ _ _ s s1 s2 1%positive _ 5
              Hopen Hrun Hcell ltac:(eexists; reflexivity) Hstep Hafter)
    as (Hclosed & _ & Hidle & Hout).
  exists s, s1, s2. split; [reflexivity|]. split; [exact Hstep|].
  split; [exact Hafter|]. split; [exact (f_equal (fmap closed) Hclosed)|].
  split; [|split; [|split; [exact Hidle|exact Hout]]].
  - vm_compute in Hrun. injection Hrun as <-.
    vm_compute in Hstep. injection Hstep as <-. reflexivity.
  - vm_compute in Hrun. injection Hrun as <-.
    vm_compute in Hstep. injection Hstep as <-.
    vm_compute in Hafter. injection Hafter as <-. reflexivity.
Defined.

(** ** Connection strings *)

Lemma ParseBool_true str :
  (ParseBool str).1 = bool_decide (str ∈ true_spellings).
Proof.
  unfold ParseBool, true_spellings.
  destruct (decide (str ∈ ["1"; "t"; "T"; "TRUE"; "true"; "True"])) as [H|H].
  - rewrite bool_decide_eq_true_2; auto.
  - rewrite bool_decide_eq_false_2; auto. case_decide; reflexivity.
Qed.

Lemma ParseBool_error str :
  (ParseBool str).2 = None <->
  str ∈ true_spellings ++ ["0"; "f"; "F"; "FALSE"; "false"; "False"].
Proof.
  unfold ParseBool, true_spellings. rewrite elem_of_app.
  repeat case_decide; simpl; split; auto; try discriminate.
  intros [?|?]; contradiction.
Qed.

Lemma visits_elem_of params keys k :
  visits params keys -> k ∈ keys <-> is_Some (params !! k).
Proof.
  unfold visits. intros ->. rewrite list_elem_of_fmap. split.
  - intros ([k' v] & -> & Hin). apply elem_of_map_to_list in Hin. eauto.
  - intros [v Hv]. exists (k, v). split; [reflexivity|].
    apply elem_of_map_to_list. exact Hv.
Qed.

Lemma loop_effect_nil params o : loop_effect params [] o = o.
Proof.
  unfold loop_effect. destruct o as [? [? ? ?] ? ? ? ? ? ? ? ?].
  repeat case_decide; try (exfalso; eapply not_elem_of_nil; eassumption).
  reflexivity.
Qed.

Ltac membership :=
  repeat match goal with
         | H : _ ∈ [] |- _ => inversion H
         | H : _ ∈ _ :: _ |- _ => apply elem_of_cons in H as [H|H]
         | H : ¬ (_ ∈ _ :: _) |- _ => apply not_elem_of_cons in H as [? ?]
         end.

Lemma dsn_option_effect params v o :
  dsn_option params v o = loop_effect params [v] o.
Proof.
  unfold dsn_option, loop_effect. destruct o as [? [? ? ?] ? ? ? ? ? ? ? ?].
  unfold set_Debug, set_Compression; simpl.
  repeat case_decide; membership; subst;
    try discriminate; try congruence;
    repeat match goal with
           | |- context [(ParseBool ?s).1] => destruct (ParseBool s).1
           end; reflexivity.
Qed.

Lemma loop_effect_cons params v keys o :
  loop_effect params keys (loop_effect params [v] o) =
  loop_effect params (v :: keys) o.
Proof.
  unfold loop_effect.
  destruct o as [? [? ? ?] ? ? ? ? ? ? ? ?].
  unfold set_Debug, set_Compression; simpl.
  repeat case_decide; membership; subst;
    try discriminate; try congruence; try contradiction;
    repeat match goal with
           | |- context [(ParseBool ?s).1] => destruct (ParseBool s).1
           end; reflexivity.
Qed.

Lemma foldl_dsn_option params keys : forall o,
  foldl (fun o v => dsn_option params v o) o keys = loop_effect params keys o.
Proof.
  induction keys as [|v keys IH]; intros o; simpl.
  - symmetry. apply loop_effect_nil.
  - rewrite IH, dsn_option_effect. apply loop_effect_cons.
Qed.

(** C9, as stated, fails: a connection string with dial_timeout=5s gives
    the configuration of the same string without the option, with the
    default dial timeout of one second; and compress=yes, which
    [strconv.ParseBool] rejects, gives no error and no compression. *)
Lemma fromDSN_drops_dial_timeout :
  fromDSN sample_Parse ["dial_timeout"]
    "clickhouse://127.0.0.1:9000?dial_timeout=5s" zero_Options =
  fromDSN sample_Parse [] "clickhouse://127.0.0.1:9000" zero_Options /\
  DialTimeout
    (fromDSN sample_Parse ["dial_timeout"]
       "clickhouse://127.0.0.1:9000?dial_timeout=5s" zero_Options).1 =
  time_Second /\
  (ParseBool "yes").2 = Some (strconv_SyntaxError "ParseBool" "yes") /\
  fromDSN sample_Parse ["compress"]
    "clickhouse://127.0.0.1:9000?compress=yes" zero_Options =
  fromDSN sample_Parse [] "clickhouse://127.0.0.1:9000" zero_Options /\
  (fromDSN sample_Parse ["compress"]
     "clickhouse://127.0.0.1:9000?compress=yes" zero_Options).2 = None.
Proof. split_and!; vm_compute; reflexivity. Qed.

(** C9, amended: when [url.Parse] fails, [fromDSN] returns its error
    and leaves the configuration alone.  Otherwise it returns no error
    and, whatever the order in which the query's keys are visited, the
    configuration is the defaulted one in which the host is appended to
    the address list, debug is read from its option and compression is
    LZ4 when the compress option is true; an option is true exactly when
    its value is one of 1, t, T, TRUE, true, True.  In particular
    compress with a true value gives compression method LZ4 and debug
    with a true value switches debug on.  No other option changes the
    result. *)
Theorem fromDSN_reads_debug_and_compress
    (url_Parse : string -> URL + error) (keys : list string) (input : string)
    (o : Options) :
  (forall e, url_Parse input = inr e ->
     fromDSN url_Parse keys input o = (o, Some e)) /\
  (forall dsn, url_Parse input = inl dsn -> visits (Query dsn) keys ->
     fromDSN url_Parse keys input o = (setDefaults (described dsn o), None) /\
     (is_Some (Query dsn !! "compress") ->
      Get (Query dsn) "compress" ∈ true_spellings ->
      Compression_ (fromDSN url_Parse keys input o).1 =
      Some {| Method := CompressionLZ4 |}) /\
     (is_Some (Query dsn !! "debug") ->
      Get (Query dsn) "debug" ∈ true_spellings ->
      Debug (fromDSN url_Parse keys input o).1 = true)).
Proof.
  split.
  - intros e He. unfold fromDSN. rewrite He. reflexivity.
  - intros dsn Hdsn Hkeys.
    assert (fromDSN url_Parse keys input o =
            (setDefaults (described dsn o), None)) as Hres.
    { unfold fromDSN. rewrite Hdsn, foldl_dsn_option. f_equal. f_equal.
      unfold loop_effect, described, dsn_flag.
      pose proof (visits_elem_of _ _ "debug" Hkeys) as Hd.
      pose proof (visits_elem_of _ _ "compress" Hkeys) as Hc.
      rewrite <- !ParseBool_true. simpl.
      destruct (Query dsn !! "debug") as [vd|].
      + rewrite (decide_True (P := "debug" ∈ keys)) by (apply Hd; eauto).
        destruct (Query dsn !! "compress") as [vc|].
        * rewrite (decide_True (P := "compress" ∈ keys)) by (apply Hc; eauto).
          reflexivity.
        * rewrite (decide_False (P := "compress" ∈ keys))
            by (intros Hin; apply Hc in Hin; destruct Hin; discriminate).
          reflexivity.
      + rewrite (decide_False (P := "debug" ∈ keys))
          by (intros Hin; apply Hd in Hin; destruct Hin; discriminate).
        destruct (Query dsn !! "compress") as [vc|].
        * rewrite (decide_True (P := "compress" ∈ keys)) by (apply Hc; eauto).
          reflexivity.
        * rewrite (decide_False (P := "compress" ∈ keys))
            by (intros Hin; apply Hc in Hin; destruct Hin; discriminate).
          reflexivity. }
    rewrite Hres. simpl.
    destruct (setDefaults_frame (described dsn o)) as (_ & _ & _ & -> & _ & ->).
    unfold described, dsn_flag. simpl. split_and!; [reflexivity| |].
    + intros [v ->] Hin. rewrite bool_decide_eq_true_2 by exact Hin. reflexivity.
    + intros [v ->] Hin. rewrite bool_decide_eq_true_2 by exact Hin. reflexivity.
Qed.

Lemma fromDSN_reads_debug_and_compress_witness :
  fromDSN sample_Parse ["debug"; "compress"]
    "clickhouse://127.0.0.1:9000?compress=true&debug=1" zero_Options =
  (setDefaults
     (set_Debug true
        (set_Compression (Some {| Method := CompressionLZ4 |})
           (set_Addr ["127.0.0.1:9000"] zero_Options))), None) /\
  Compression_
    (fromDSN sample_Parse ["debug"; "compress"]
       "clickhouse://127.0.0.1:9000?compress=true&debug=1" zero_Options).1 =
  Some {| Method := CompressionLZ4 |}.
Proof.
  destruct (fromDSN_reads_debug_and_compress sample_Parse ["debug"; "compress"]
              "clickhouse://127.0.0.1:9000?compress=true&debug=1" zero_Options)
    as [_ Hok].
  destruct (Hok {| Host := "127.0.0.1:9000";
                   Query := {[ "compress" := ["true"]; "debug" := ["1"] ]} |})
    as (Hres & Hcompress & _).
  - vm_compute. reflexivity.
  - unfold visits. vm_compute. apply Permutation_swap.
  - split.
    + rewrite Hres. vm_compute. reflexivity.
    + apply Hcompress.
      * vm_compute. eexists. reflexivity.
      * vm_compute. apply list_elem_of_In. simpl. tauto.
Defined.

(** * Further properties of the pool and of its callers *)

Lemma Options_eq (o o' : Options) :
  Addr o = Addr o' -> Database (Auth_ o) = Database (Auth_ o') ->
  Username (Auth_ o) = Username (Auth_ o') ->
  Password (Auth_ o) = Password (Auth_ o') ->
  TLS o = TLS o' -> Debug o = Debug o' -> Settings o = Settings o' ->
  DialTimeout o = DialTimeout o' -> Compression_ o = Compression_ o' ->
  MaxOpenConns o = MaxOpenConns o' -> MaxIdleConns o = MaxIdleConns o' ->
  ConnMaxLifetime o = ConnMaxLifetime o' -> o = o'.
Proof.
  destruct o as [? [? ? ?] ? ? ? ? ? ? ? ?], o' as [? [? ? ?] ? ? ? ? ? ? ? ?].
  simpl. intros. subst. reflexivity.
Qed.

Lemma setDefaults_fixed (o : Options) :
  setDefaults (setDefaults o) = setDefaults o.
Proof.
  destruct (setDefaults_frame (setDefaults o)) as (? & ? & ? & ? & ? & ?).
  apply Options_eq; try assumption.
  - rewrite setDefaults_Database.
    destruct (empty_string (Database (Auth_ (setDefaults o)))) eqn:E;
      [|reflexivity].
    rewrite setDefaults_Database in E |- *.
    destruct (empty_string (Database (Auth_ o))) eqn:E2;
      [reflexivity|simpl in E; congruence].
  - rewrite setDefaults_Username.
    destruct (empty_string (Username (Auth_ (setDefaults o)))) eqn:E;
      [|reflexivity].
    rewrite setDefaults_Username in E |- *.
    destruct (empty_string (Username (Auth_ o))) eqn:E2;
      [reflexivity|simpl in E; congruence].
  - rewrite setDefaults_DialTimeout.
    destruct (Z.eqb_spec (DialTimeout (setDefaults o)) 0) as [E|]; [|reflexivity].
    rewrite setDefaults_DialTimeout in E |- *.
    destruct (Z.eqb_spec (DialTimeout o) 0); [reflexivity|contradiction].
  - rewrite (setDefaults_MaxOpenConns (setDefaults o)).
    assert (MaxIdleConns (setDefaults (setDefaults o)) =
            MaxIdleConns (setDefaults o)) as ->.
    { rewrite (setDefaults_MaxIdleConns (setDefaults o)).
      pose proof (setDefaults_idle_positive o).
      destruct (Z.leb_spec (MaxIdleConns (setDefaults o)) 0); [lia|reflexivity]. }
    destruct (Z.leb_spec (MaxOpenConns (setDefaults o)) 0) as [E|]; [|reflexivity].
    rewrite setDefaults_MaxOpenConns in E |- *.
    destruct (Z.leb_spec (MaxOpenConns o) 0); [reflexivity|lia].
  - rewrite (setDefaults_MaxIdleConns (setDefaults o)).
    pose proof (setDefaults_idle_positive o).
    destruct (Z.leb_spec (MaxIdleConns (setDefaults o)) 0); [lia|reflexivity].
  - rewrite setDefaults_ConnMaxLifetime.
    destruct (Z.eqb_spec (ConnMaxLifetime (setDefaults o)) 0) as [E|];
      [|reflexivity].
    rewrite setDefaults_ConnMaxLifetime in E |- *.
    destruct (Z.eqb_spec (ConnMaxLifetime o) 0); [reflexivity|contradiction].
Qed.

(** Defaulting twice is defaulting once, for every [Options] value, also
    where the defaulted max-open has wrapped around; and in a defaulted
    value the database, the username, the dial timeout and the lifetime
    are set. *)
Theorem setDefaults_idempotent (o : Options) :
  setDefaults (setDefaults o) = setDefaults o /\
  Database (Auth_ (setDefaults o)) ≠ "" /\
  Username (Auth_ (setDefaults o)) ≠ "" /\
  DialTimeout (setDefaults o) ≠ 0 /\
  ConnMaxLifetime (setDefaults o) ≠ 0.
Proof.
  split; [apply setDefaults_fixed|].
  rewrite setDefaults_Database, setDefaults_Username, setDefaults_DialTimeout,
    setDefaults_ConnMaxLifetime.
  split_and!.
  - destruct (Database (Auth_ o)) as [|a d]; simpl; discriminate.
  - destruct (Username (Auth_ o)) as [|a d]; simpl; discriminate.
  - destruct (Z.eqb_spec (DialTimeout o) 0); [discriminate|assumption].
  - destruct (Z.eqb_spec (ConnMaxLifetime o) 0); [discriminate|assumption].
Qed.

(** An [Options] value whose database, username, dial timeout, max-idle,
    max-open and lifetime are all set comes out of [setDefaults] as it
    went in; negative durations count as set. *)
Theorem setDefaults_keeps_what_is_set (o : Options) :
  Database (Auth_ o) ≠ "" -> Username (Auth_ o) ≠ "" ->
  DialTimeout o ≠ 0 -> 0 < MaxIdleConns o -> 0 < MaxOpenConns o ->
  ConnMaxLifetime o ≠ 0 ->
  setDefaults o = o.
Proof.
  intros Hd Hu Ht Hi Ho Hl.
  assert (forall s, s ≠ "" -> empty_string s = false) as Hne
    by (intros [|a s]; [congruence|reflexivity]).
  destruct (setDefaults_frame o) as (? & ? & ? & ? & ? & ?).
  apply Options_eq; try assumption.
  - rewrite setDefaults_Database, (Hne _ Hd). reflexivity.
  - rewrite setDefaults_Username, (Hne _ Hu). reflexivity.
  - rewrite setDefaults_DialTimeout.
    destruct (Z.eqb_spec (DialTimeout o) 0); [contradiction|reflexivity].
  - apply setDefaults_open_set. exact Ho.
  - rewrite setDefaults_MaxIdleConns.
    destruct (Z.leb_spec (MaxIdleConns o) 0); [lia|reflexivity].
  - rewrite setDefaults_ConnMaxLifetime.
    destruct (Z.eqb_spec (ConnMaxLifetime o) 0); [contradiction|reflexivity].
Qed.

Lemma setDefaults_keeps_what_is_set_witness :
  setDefaults
    (set_ConnMaxLifetime (-1) (set_DialTimeout (-1) (setDefaults zero_Options)))
  = set_ConnMaxLifetime (-1) (set_DialTimeout (-1) (setDefaults zero_Options)).
Proof.
  apply setDefaults_keeps_what_is_set; simpl; try discriminate; try lia;
    vm_compute; congruence.
Defined.

(** Opening a second handle through a pointer that [Open] has already
    defaulted leaves the structure as it is and builds a pool like the
    first one. *)
Theorem Open_again (p : loc) (h h' : gmap loc Options) (ch : clickhouse)
    (e : option error) :
  Open p h = Done ((ch, e), h') ->
  Open p h' = Done ((ch, None), h').
Proof.
  unfold Open. destruct (h !! p) as [o|] eqn:Hp; [|discriminate].
  destruct (make ptr_size _) as [ci|] eqn:Hi; [|discriminate]. simpl.
  destruct (make unit_size _) as [co|] eqn:Ho; [|discriminate]. simpl.
  intros E. injection E as <- _ <-.
  rewrite lookup_insert_eq, setDefaults_fixed, Hi. simpl. rewrite Ho. simpl.
  rewrite insert_insert_eq. reflexivity.
Qed.

Lemma Open_again_witness :
  Open 1%positive (options (world_of one_address)) =
  Done ((small_pool, None), options (world_of one_address)).
Proof.
  apply (Open_again 1%positive {[ 1%positive := one_address ]} _ _ None).
  vm_compute. reflexivity.
Defined.

(** With every permit taken, [acquire] returns no Session and [io.EOF],
    whatever the timer and the network do; the pool, the counter and the
    heap are as before. *)
Theorem acquire_exhausted (rt : runtime) (ch : clickhouse) (w : world) :
  cap (open ch) <= len (open ch) ->
  acquire rt ch w = Done ((None, Some io_EOF), ch, w).
Proof.
  intros Hfull. unfold acquire, reserve, try_send.
  destruct (Z.ltb_spec (len (open ch)) (cap (open ch))); [lia|reflexivity].
Qed.

Lemma acquire_exhausted_witness :
  acquire (in_time everyone_answers)
    (set_open {| buf := [(); ()]; cap := 2 |} small_pool)
    (world_of one_address) =
  Done ((None, Some io_EOF),
        set_open {| buf := [(); ()]; cap := 2 |} small_pool,
        world_of one_address).
Proof. apply acquire_exhausted. vm_compute. congruence. Defined.

Lemma reserve_quiet rt ch :
  quiet rt -> len (open ch) < cap (open ch) ->
  reserve rt ch =
  Some (set_open {| buf := buf (open ch) ++ [()]; cap := cap (open ch) |} ch).
Proof.
  intros [Hq _] Hroom. unfold reserve, try_send.
  destruct (Z.ltb_spec (len (open ch)) (cap (open ch))); [|lia].
  rewrite Hq. reflexivity.
Qed.

Lemma pick_idle_quiet rt ch c q :
  quiet rt -> buf (idle ch) = c :: q ->
  pick_idle rt ch = Reused c (set_idle {| buf := q; cap := cap (idle ch) |} ch).
Proof.
  intros [_ Hq] Hidle. unfold pick_idle, try_recv. rewrite Hidle, Hq.
  rewrite andb_false_l. reflexivity.
Qed.

(** With a free permit, a silent timer and a Session in the idle queue,
    [acquire] hands out the oldest queued Session with a nil error: it
    does not dial, the counter and the heap are as before, and the rest
    of the queue keeps its order. *)
Theorem acquire_reuses_oldest (rt : runtime) (ch : clickhouse) (w : world)
    (c : loc) (q : list loc) :
  quiet rt ->
  len (open ch) < cap (open ch) ->
  buf (idle ch) = c :: q ->
  acquire rt ch w =
  Done ((Some c, None),
        {| opt := opt ch; idle := {| buf := q; cap := cap (idle ch) |};
           open := {| buf := buf (open ch) ++ [()]; cap := cap (open ch) |};
           counter := counter ch |}, w).
Proof.
  intros Hq Hroom Hidle. unfold acquire.
  rewrite (reserve_quiet rt ch Hq Hroom).
  rewrite (pick_idle_quiet rt
             (set_open {| buf := buf (open ch) ++ [()]; cap := cap (open ch) |}
                ch) c q Hq Hidle).
  reflexivity.
Qed.

Lemma acquire_reuses_oldest_witness :
  acquire (in_time nobody_listens)
    (set_idle {| buf := [4%positive; 2%positive]; cap := 5 |} small_pool)
    (world_of one_address) =
  Done ((Some 4%positive, None),
        set_open {| buf := [()]; cap := 10 |}
          (set_idle {| buf := [2%positive]; cap := 5 |} small_pool),
        world_of one_address).
Proof.
  apply (acquire_reuses_oldest (in_time nobody_listens)
           (set_idle {| buf := [4%positive; 2%positive]; cap := 5 |} small_pool)
           (world_of one_address) 4%positive [2%positive]).
  - split; reflexivity.
  - vm_compute. reflexivity.
  - reflexivity.
Defined.

Lemma dial_each_agree nw nw' num addrs : forall from res w n a t,
  addrs !! n = Some a ->
  nw (from + n)%nat a num = Connected t ->
  (forall i b, (i <= n)%nat -> addrs !! i = Some b ->
               nw (from + i)%nat b num = nw' (from + i)%nat b num) ->
  dial_each nw from addrs num res w = dial_each nw' from addrs num res w.
Proof.
  induction addrs as [|b addrs IH]; intros from res w n a t Hn Hok Hsame.
  - discriminate.
  - simpl. unfold dial.
    pose proof (Hsame O b ltac:(lia) eq_refl) as H0.
    rewrite !Nat.add_0_r in H0. rewrite <- H0.
    destruct n as [|n]; simpl in Hn.
    + injection Hn as ->. rewrite Nat.add_0_r in Hok. rewrite Hok. reflexivity.
    + destruct (nw from b num) as [t0|e0]; [reflexivity|]. simpl.
      apply (IH (S from) _ w n a t Hn).
      * rewrite <- Hok. f_equal. lia.
      * intros i b' Hi Hb'.
        replace (S from + i)%nat with (from + S i)%nat by lia.
        apply Hsame; [lia|exact Hb'].
Qed.

(** The loop stops at the first address that answers: two networks that
    agree up to that attempt give the same [acquire], whatever they would
    say for the addresses after it. *)
Theorem acquire_stops_at_first_answer (rt rt' : runtime) (ch : clickhouse)
    (w : world) (o : Options) (n : nat) (a : string) (t : Z) :
  fired1 rt' = fired1 rt -> coin1 rt' = coin1 rt ->
  fired2 rt' = fired2 rt -> coin2 rt' = coin2 rt ->
  options w !! opt ch = Some o ->
  Addr o !! n = Some a ->
  net rt n a (int_add (counter ch) 1) = Connected t ->
  agree_upto (net rt) (net rt') (int_add (counter ch) 1) (Addr o) n ->
  acquire rt' ch w = acquire rt ch w.
Proof.
  intros H1 H2 H3 H4 Hopt Hn Hok Hsame.
  unfold acquire, reserve, pick_idle. rewrite H1, H2, H3, H4.
  destruct (try_send (open ch) ()) as [q|]; [|reflexivity].
  destruct (fired1 rt && coin1 rt); [reflexivity|].
  destruct (try_recv (idle (set_open q ch))) as [[c q']|];
    [destruct (fired2 rt && coin2 rt); reflexivity|].
  destruct (fired2 rt); [reflexivity|].
  unfold next_num. simpl. rewrite Hopt.
  rewrite (dial_each_agree (net rt) (net rt') _ _ 0%nat (None, None) w n a t
             Hn Hok Hsame).
  reflexivity.
Qed.

Lemma acquire_stops_at_first_answer_witness :
  acquire (in_time (fun i _ _ => if (i =? 0)%nat then Connected 3
                                  else Refused io_EOF))
    small_pool (world_of three_addresses) =
  acquire (in_time everyone_answers) small_pool (world_of three_addresses).
Proof.
  apply (acquire_stops_at_first_answer (in_time everyone_answers) _ small_pool
           (world_of three_addresses) (setDefaults three_addresses)
           0%nat "10.0.0.1:9000" 3); try reflexivity.
  intros i a Hi _. replace i with 0%nat by lia. reflexivity.
Defined.

Lemma dial_each_session nw num addrs : forall from res w r w' p,
  res.1 = None ->
  dial_each nw from addrs num res w = (r, w') ->
  r.1 = Some p ->
  conns w !! p = None /\
  exists t, conns w' !! p =
            Some {| id := num; err := None; connectedAt := t; closed := false |}.
Proof.
  induction addrs as [|a addrs IH]; intros from res w r w' p Hres; simpl.
  - intros E. injection E as <- <-. congruence.
  - unfold dial. destruct (nw from a num) as [t|e]; simpl.
    + intros E. injection E as <- <-. simpl. intros E. injection E as <-.
      split.
      * apply not_elem_of_dom, is_fresh.
      * exists t. apply lookup_insert_eq.
    + apply IH. reflexivity.
Qed.

(** The identity counter goes up by one per call that reaches the dial
    loop, whether the dial succeeds or not and however many addresses are
    tried; a Session that comes out of the loop is new and carries the
    new counter value.  A call that times out or reuses an idle Session
    leaves the counter and the heap alone. *)
Theorem acquire_counts_calls_that_dial (rt : runtime) (ch ch' : clickhouse)
    (w w' : world) (r : option loc * option error) :
  acquire rt ch w = Done (r, ch', w') ->
  (forall ch1, reserve rt ch = Some ch1 -> pick_idle rt ch1 = Fresh ->
     counter ch' = int_add (counter ch) 1 /\
     forall p, r.1 = Some p ->
       conns w !! p = None /\
       exists t, conns w' !! p =
                 Some {| id := int_add (counter ch) 1; err := None;
                         connectedAt := t; closed := false |}) /\
  (reserve rt ch = None \/
   (exists ch1, reserve rt ch = Some ch1 /\ pick_idle rt ch1 ≠ Fresh) ->
   counter ch' = counter ch /\ w' = w).
Proof.
  unfold acquire. intros Hacq. split.
  - intros ch1 Hres Hpick. rewrite Hres, Hpick in Hacq.
    apply reserve_Some in Hres as [-> _]. unfold next_num in Hacq.
    simpl in Hacq. destruct (options w !! opt ch) as [o|]; [|discriminate].
    destruct (dial_each _ _ _ _ _ _) as [res w1] eqn:Hdial.
    injection Hacq as <- <- <-. split; [reflexivity|].
    intros p Hp. eapply dial_each_session; [|exact Hdial|exact Hp]. reflexivity.
  - intros [Hnone|(ch1 & Hres & Hpick)].
    + rewrite Hnone in Hacq. injection Hacq as _ <- <-. auto.
    + rewrite Hres in Hacq. apply reserve_Some in Hres as [-> _].
      destruct (pick_idle rt _) as [|c ch2|] eqn:Hp; [| |contradiction].
      * injection Hacq as _ <- <-. auto.
      * apply pick_idle_Reused in Hp as (q & _ & ->).
        injection Hacq as _ <- <-. auto.
Qed.

Lemma acquire_counts_calls_that_dial_witness :
  counter (set_counter 1 (set_open {| buf := [()]; cap := 10 |} small_pool)) =
    int_add (counter small_pool) 1.
Proof.
  destruct (acquire_counts_calls_that_dial (in_time nobody_listens) small_pool
              (set_counter 1 (set_open {| buf := [()]; cap := 10 |} small_pool))
              (world_of two_addresses) (world_of two_addresses)
              (None, Some (DialError "connection refused")))
    as [Hdial _]; [vm_compute; reflexivity|].
  destruct (Hdial (set_open {| buf := [()]; cap := 10 |} small_pool))
    as [Hcount _]; [vm_compute; reflexivity|vm_compute; reflexivity|].
  exact Hcount.
Defined.

(** [release] changes nothing but the [open] and [idle] queues and the
    released Session: the options, the counter, the capacities and every
    other Session are as before, and the idle queue keeps its contents,
    with at most the released Session appended. *)
Theorem release_touches_one_session (now : Z) (p : loc) (ch ch' : clickhouse)
    (w w' : world) :
  release now p ch w = Done (ch', w') ->
  opt ch' = opt ch /\ counter ch' = counter ch /\
  cap (open ch') = cap (open ch) /\ cap (idle ch') = cap (idle ch) /\
  options w' = options w /\
  dom (conns w') = dom (conns w) /\
  (forall q, q ≠ p -> conns w' !! q = conns w !! q) /\
  (buf (idle ch') = buf (idle ch) \/ buf (idle ch') = buf (idle ch) ++ [p]).
Proof.
  unfold release. intros Hrel.
  destruct (free_permit_frame ch) as (Hopt & Hidle & Hcount & Hcap).
  apply settle_Done in Hrel
    as (-> & -> & -> & -> & -> & -> & Hcase).
  rewrite Hopt, Hcount, Hcap, Hidle. split_and!; try reflexivity.
  - intros q Hq. destruct Hcase as [[_ ->]|(_ & _ & -> & _)]; [|reflexivity].
    unfold close_at. simpl. apply lookup_alter_ne. congruence.
  - destruct Hcase as [[-> _]|(_ & -> & _)]; rewrite ?Hidle; auto.
Qed.

Lemma release_touches_one_session_witness :
  conns (close_at 1%positive (world_with (session (Some io_EOF)))) !! 2%positive =
  conns (world_with (session (Some io_EOF))) !! 2%positive.
Proof.
  destruct (release_touches_one_session 5 1%positive busy_pool
              (set_open {| buf := []; cap := 10 |} busy_pool)
              (world_with (session (Some io_EOF)))
              (close_at 1%positive (world_with (session (Some io_EOF)))))
    as (_ & _ & _ & _ & _ & _ & Hothers & _); [vm_compute; reflexivity|].
  apply Hothers. discriminate.
Defined.

Lemma units_snoc (l : list unit) : l ++ [()] = () :: l.
Proof. induction l as [|[] l IH]; simpl; [reflexivity|]. rewrite IH. reflexivity. Qed.

(** Giving back a healthy Session within its lifetime to a pool with an
    empty idle queue, and acquiring again with a silent timer, hands the
    same Session back and leaves pool and heap exactly as they were. *)
Theorem release_then_acquire (rt : runtime) (now : Z) (p : loc)
    (ch : clickhouse) (w : world) (c : connect) (o : Options) :
  quiet rt ->
  conns w !! p = Some c -> err c = None ->
  options w !! opt ch = Some o ->
  time_Since now (connectedAt c) < ConnMaxLifetime o ->
  buf (idle ch) = [] -> 0 < cap (idle ch) ->
  0 < len (open ch) <= cap (open ch) ->
  obind (release now p ch w) (fun r => acquire rt r.1 r.2) =
  Done ((Some p, None), ch, w).
Proof.
  intros Hq Hp Herr Hopt Hyoung Hidle Hcapi [Hheld Hcapo].
  unfold release, settle, worn_out. rewrite Hp, Herr.
  destruct (free_permit_frame ch) as (-> & Hi & Hc & Hcap). rewrite Hopt. simpl.
  destruct (Z.leb_spec (ConnMaxLifetime o) (time_Since now (connectedAt c)));
    [lia|]. simpl.
  unfold try_send. rewrite Hi.
  destruct (Z.ltb_spec (len (idle ch)) (cap (idle ch))) as [_|Hfull];
    [|unfold len in Hfull; rewrite Hidle in Hfull; simpl in Hfull; lia].
  simpl.
  unfold acquire. rewrite (reserve_quiet rt _ Hq);
    [|simpl; rewrite free_permit_len, Hcap; lia].
  rewrite (pick_idle_quiet rt _ p [] Hq) by (simpl; rewrite Hidle; reflexivity).
  simpl. f_equal. f_equal. f_equal.
  destruct ch as [op [ib ic] [ob oc] n]. simpl in *. subst ib.
  unfold free_permit, try_recv, len in *. simpl in *.
  destruct ob as [|[] ob]; simpl in *; [lia|].
  rewrite units_snoc. reflexivity.
Qed.

Lemma release_then_acquire_witness :
  obind (release 5 1%positive busy_pool (world_with (session None)))
        (fun r => acquire (in_time nobody_listens) r.1 r.2) =
  Done ((Some 1%positive, None), busy_pool, world_with (session None)).
Proof.
  apply (release_then_acquire (in_time nobody_listens) 5 1%positive busy_pool
           (world_with (session None)) (session None)
           (setDefaults zero_Options)).
  - split; reflexivity.
  - reflexivity.
  - reflexivity.
  - reflexivity.
  - vm_compute. reflexivity.
  - reflexivity.
  - simpl. lia.
  - vm_compute. split; [reflexivity|congruence].
Defined.

(** With a lifetime that is zero or negative ([setDefaults] keeps a
    negative one), [release] closes every Session that was not created in
    the future; nothing is ever kept in the idle queue. *)
Theorem release_with_no_lifetime (now : Z) (p : loc) (ch : clickhouse)
    (w : world) (c : connect) (o : Options) :
  conns w !! p = Some c ->
  options w !! opt ch = Some o ->
  ConnMaxLifetime o <= 0 ->
  connectedAt c <= now ->
  release now p ch w = Done (free_permit ch, close_at p w).
Proof.
  intros Hp Hopt Hlife Hpast. unfold release, settle, worn_out. rewrite Hp.
  destruct (free_permit_frame ch) as (-> & _). rewrite Hopt.
  destruct (err c); [reflexivity|]. simpl.
  destruct (Z.leb_spec (ConnMaxLifetime o) (time_Since now (connectedAt c)))
    as [_|Hyoung]; [reflexivity|].
  unfold time_Since, time_Sub, int_min, int_max in Hyoung. lia.
Qed.

Lemma release_with_no_lifetime_witness :
  ConnMaxLifetime (setDefaults (set_ConnMaxLifetime (-1) zero_Options)) = -1 /\
  release 5 1%positive busy_pool
    {| options := {[ 1%positive :=
                       setDefaults (set_ConnMaxLifetime (-1) zero_Options) ]};
       conns := {[ 1%positive := session None ]} |} =
  Done (free_permit busy_pool,
        close_at 1%positive
          {| options := {[ 1%positive :=
                             setDefaults (set_ConnMaxLifetime (-1) zero_Options) ]};
             conns := {[ 1%positive := session None ]} |}).
Proof.
  split; [reflexivity|].
  apply (release_with_no_lifetime 5 1%positive busy_pool _ (session None)
           (setDefaults (set_ConnMaxLifetime (-1) zero_Options))).
  - reflexivity.
  - reflexivity.
  - simpl. lia.
  - simpl. lia.
Defined.

(** ** Close *)

Lemma drain_spec (q : list loc) : forall w,
  options (drain q w) = options w /\
  dom (conns (drain q w)) = dom (conns w) /\
  (forall p c, p ∈ q -> conns w !! p = Some c ->
     conns (drain q w) !! p = Some (close c)) /\
  (forall p, p ∉ q -> conns (drain q w) !! p = conns w !! p).
Proof.
  induction q as [|x q IH]; intros w; simpl.
  - split_and!; auto. intros p c Hin. inversion Hin.
  - destruct (IH (close_at x w)) as (Ho & Hd & Hin & Hout).
    split_and!.
    + rewrite Ho. reflexivity.
    + rewrite Hd. unfold close_at. simpl. apply dom_alter_L.
    + intros p c Hp Hc. destruct (decide (p ∈ q)) as [Hq|Hq].
      * destruct (decide (p = x)) as [->|Hne].
        -- rewrite (Hin x (close c) Hq); [reflexivity|].
           apply (close_at_lookup x w c Hc).
        -- apply (Hin p c Hq). unfold close_at. simpl.
           rewrite lookup_alter_ne by congruence. exact Hc.
      * apply elem_of_cons in Hp as [->|Hp]; [|contradiction].
        rewrite (Hout x Hq). apply (close_at_lookup x w c Hc).
    + intros p Hp. apply not_elem_of_cons in Hp as [Hne Hp].
      rewrite (Hout p Hp). unfold close_at. simpl.
      apply lookup_alter_ne. congruence.
Qed.

(** [Close] returns a nil error, empties the idle queue and closes every
    Session that was in it; the permits, the counter, the options and
    every Session that was not idle, the checked-out ones among them, are
    left as they were. *)
Theorem Close_closes_the_idle (ch : clickhouse) (w : world) :
  (Close ch w).1.1 = None /\
  buf (idle (Close ch w).1.2) = [] /\
  cap (idle (Close ch w).1.2) = cap (idle ch) /\
  open (Close ch w).1.2 = open ch /\
  counter (Close ch w).1.2 = counter ch /\
  opt (Close ch w).1.2 = opt ch /\
  options (Close ch w).2 = options w /\
  (forall p c, p ∈ buf (idle ch) -> conns w !! p = Some c ->
     conns (Close ch w).2 !! p = Some (close c)) /\
  (forall p, p ∉ buf (idle ch) -> conns (Close ch w).2 !! p = conns w !! p).
Proof.
  destruct (drain_spec (buf (idle ch)) w) as (Ho & _ & Hin & Hout).
  unfold Close. simpl. split_and!; auto.
Qed.

Lemma system_eta (s : system) :
  {| pool := pool s; heap := heap s; reserved := reserved s;
     dialing := dialing s; out := out s; releasing := releasing s |} = s.
Proof. destruct s. reflexivity. Qed.

Lemma take_out_head `{EqDecision A} (x : A) (l : list A) :
  take_out x (x :: l) = Some l.
Proof. simpl. rewrite decide_True by reflexivity. reflexivity. Qed.

(** A call of [acquire] that is not interrupted is one of the runs of the
    pool's steps: it leads from a state to the state with the pool and
    heap the call returns, the returned Session in its caller's hands. *)
Theorem acquire_is_a_run (rt : runtime) (s : system) (ch' : clickhouse)
    (w' : world) (r : option loc * option error) :
  acquire rt (pool s) (heap s) = Done (r, ch', w') ->
  exists es,
    run es s =
    Some {| pool := ch'; heap := w'; reserved := reserved s;
            dialing := dialing s;
            out := match r.1 with Some c => c :: out s | None => out s end;
            releasing := releasing s |}.
Proof.
  unfold acquire. intros Hacq.
  destruct (reserve rt (pool s)) as [ch1|] eqn:Hres.
  - apply reserve_Some in Hres as [-> Hroom].
    assert (try_send (open (pool s)) () =
            Some {| buf := buf (open (pool s)) ++ [()];
                    cap := cap (open (pool s)) |}) as Hsend.
    { unfold try_send.
      destruct (Z.ltb_spec (len (open (pool s))) (cap (open (pool s))));
        [reflexivity|lia]. }
    destruct (pick_idle rt _) as [|c ch2|] eqn:Hpick.
    + injection Hacq as <- <- <-. exists [acquire_reserve; acquire_expire].
      simpl. rewrite Hsend. reflexivity.
    + apply pick_idle_Reused in Hpick as (q & Hq & ->). simpl in Hq.
      injection Hacq as <- <- <-. exists [acquire_reserve; acquire_reuse].
      simpl. rewrite Hsend. simpl. unfold try_recv. simpl. rewrite Hq.
      reflexivity.
    + apply pick_idle_Fresh in Hpick. simpl in Hpick.
      unfold next_num in Hacq. simpl in Hacq.
      destruct (options (heap s) !! opt (pool s)) as [o|] eqn:Hopt;
        [|discriminate].
      destruct (dial_each _ _ _ _ _ _) as [res w1] eqn:Hdial.
      injection Hacq as <- <- <-.
      exists [acquire_reserve; acquire_default;
              acquire_dialed (int_add (counter (pool s)) 1) (net rt)].
      simpl. rewrite Hsend. simpl. rewrite Hpick. simpl.
      rewrite decide_True by reflexivity. simpl. rewrite Hopt. simpl.
      rewrite Hdial. reflexivity.
  - injection Hacq as <- <- <-. exists [acquire_timeout]. simpl.
    rewrite system_eta. reflexivity.
Qed.

Lemma acquire_is_a_run_witness :
  exists es,
    run es (boot small_pool (world_of three_addresses)) =
    Some {| pool := set_counter 1
                      (set_open {| buf := [()]; cap := 10 |} small_pool);
            heap := set_conns
                      {[ 1%positive := {| id := 1; err := None;
                                          connectedAt := 7; closed := false |} ]}
                      (world_of three_addresses);
            reserved := 0; dialing := []; out := [1%positive];
            releasing := [] |}.
Proof.
  apply (acquire_is_a_run (in_time third_answers)
           (boot small_pool (world_of three_addresses)) _ _
           (Some 1%positive, None)).
  vm_compute. reflexivity.
Defined.

(** A call of [release] on a checked-out Session that is not interrupted
    is the run of its two steps. *)
Theorem release_is_a_run (now : Z) (c : loc) (s : system) (ch' : clickhouse)
    (w' : world) :
  c ∈ out s ->
  release now c (pool s) (heap s) = Done (ch', w') ->
  exists o,
    take_out c (out s) = Some o /\
    run [release_free c; release_settle c now] s =
    Some {| pool := ch'; heap := w'; reserved := reserved s;
            dialing := dialing s; out := o; releasing := releasing s |}.
Proof.
  intros Hin Hrel. destruct (take_out_elem_of c (out s) Hin) as [o Ho].
  exists o. split; [exact Ho|]. simpl. rewrite Ho. simpl.
  rewrite decide_True by reflexivity. simpl.
  unfold release in Hrel. rewrite Hrel. reflexivity.
Qed.

Lemma release_is_a_run_witness :
  run [release_free 1%positive; release_settle 1%positive 5]
    {| pool := busy_pool; heap := world_with (session None); reserved := 0;
       dialing := []; out := [1%positive]; releasing := [] |} =
  Some {| pool := set_idle {| buf := [1%positive]; cap := 5 |}
                    (set_open {| buf := []; cap := 10 |} busy_pool);
          heap := world_with (session None); reserved := 0; dialing := [];
          out := []; releasing := [] |}.
Proof.
  destruct (release_is_a_run 5 1%positive
              {| pool := busy_pool; heap := world_with (session None);
                 reserved := 0; dialing := []; out := [1%positive];
                 releasing := [] |}
              (set_idle {| buf := [1%positive]; cap := 5 |}
                 (set_open {| buf := []; cap := 10 |} busy_pool))
              (world_with (session None)))
    as (o & Ho & Hrun).
  - apply list_elem_of_In. simpl. auto.
  - vm_compute. reflexivity.
  - vm_compute in Ho. injection Ho as <-. exact Hrun.
Defined.

Lemma drain_steps (q : list loc) : forall s,
  buf (idle (pool s)) = q ->
  run (replicate (length q) close_drain) s =
  Some {| pool := set_idle {| buf := []; cap := cap (idle (pool s)) |} (pool s);
          heap := drain q (heap s); reserved := reserved s;
          dialing := dialing s; out := out s; releasing := releasing s |}.
Proof.
  induction q as [|c q IH]; intros s Hq; simpl.
  - f_equal. destruct s as [[op [ib ic] o n] w r d os rs]. simpl in *.
    subst ib. reflexivity.
  - unfold try_recv. rewrite Hq. simpl. rewrite IH by reflexivity. reflexivity.
Qed.

(** [Close] is the run of one draining step per idle Session. *)
Theorem Close_is_a_run (s : system) :
  run (replicate (length (buf (idle (pool s)))) close_drain) s =
  Some {| pool := (Close (pool s) (heap s)).1.2;
          heap := (Close (pool s) (heap s)).2; reserved := reserved s;
          dialing := dialing s; out := out s; releasing := releasing s |}.
Proof. apply drain_steps. reflexivity. Qed.

Lemma step_starved e s s' : step e s = Some s' -> starved s -> starved s'.
Proof.
  unfold starved. intros Hstep (Hfull & Hres & Hdial & Hout).
  destruct s as [ch w n ds os rs]. simpl in *. subst n ds os.
  destruct e; simpl in Hstep.
  - simplify_eq. auto.
  - unfold try_send in Hstep.
    destruct (Z.ltb_spec (len (open ch)) (cap (open ch))); [lia|discriminate].
  - discriminate.
  - discriminate.
  - discriminate.
  - discriminate.
  - destruct (decide (c ∈ [])) as [Hin|_]; [inversion Hin|discriminate].
  - discriminate.
  - destruct (take_out c rs) as [r|]; [|discriminate]. simpl in Hstep.
    destruct (settle now c ch w) as [[ch1 w1]|] eqn:Hs; [|discriminate].
    simplify_eq/=.
    apply settle_Done in Hs as (_ & -> & _). auto.
  - unfold try_recv in Hstep.
    destruct (buf (idle ch)) as [|c q]; simplify_eq/=. auto.
Qed.

(** Once the [open] channel is full while nobody holds a permit (no call
    is past its first [select] and no Session is checked out), nothing
    brings the pool back: in every later state it is still so, and no
    Session is ever handed out. *)
Theorem starved_pool_stays_starved (es : list event) (s s' : system) :
  starved s ->
  run es s = Some s' ->
  starved s' /\ out s' = [].
Proof.
  intros Hs Hrun.
  assert (starved s') as Hs'
    by (eapply (run_preserves starved step_starved); eassumption).
  split; [exact Hs'|]. apply Hs'.
Qed.

Lemma starved_pool_stays_starved_witness :
  exists s s',
    run [acquire_reserve; acquire_default; acquire_dialed 1 nobody_listens]
      (boot (set_open {| buf := []; cap := 1 |} small_pool)
            (world_of one_address)) = Some s /\
    run [acquire_timeout; acquire_timeout] s = Some s' /\
    out s' = [].
Proof.
  destruct (run [acquire_reserve; acquire_default;
                 acquire_dialed 1 nobody_listens]
              (boot (set_open {| buf := []; cap := 1 |} small_pool)
                    (world_of one_address))) as [s|] eqn:Hs;
    [|vm_compute in Hs; discriminate].
  destruct (run [acquire_timeout; acquire_timeout] s) as [s'|] eqn:Hs';
    [|vm_compute in Hs; injection Hs as <-; vm_compute in Hs'; discriminate].
  exists s, s'. split; [reflexivity|]. split; [exact Hs'|].
  destruct (starved_pool_stays_starved [acquire_timeout; acquire_timeout] s s')
    as [_ Hout]; [|exact Hs'|exact Hout].
  vm_compute in Hs. injection Hs as <-. vm_compute. split_and!; congruence.
Defined.

Lemma acquire_frame rt ch w r ch' w' :
  acquire rt ch w = Done (r, ch', w') ->
  opt ch' = opt ch /\ options w' = options w /\
  cap (open ch') = cap (open ch) /\ cap (idle ch') = cap (idle ch).
Proof.
  unfold acquire. intros Hacq.
  destruct (reserve rt ch) as [ch1|] eqn:Hres.
  - apply reserve_Some in Hres as [-> _].
    destruct (pick_idle rt _) as [|c ch2|] eqn:Hpick.
    + injection Hacq as _ <- <-. auto.
    + apply pick_idle_Reused in Hpick as (q & _ & ->).
      injection Hacq as _ <- <-. auto.
    + unfold next_num in Hacq. simpl in Hacq.
      destruct (options w !! opt ch); [|discriminate].
      destruct (dial_each _ _ _ _ _ _) as [res w1] eqn:Hdial.
      injection Hacq as _ <- <-. apply dial_each_frame in Hdial as [-> _]. auto.
  - injection Hacq as _ <- <-. auto.
Qed.

Lemma acquire_Some_reserved rt ch w p e ch' w' :
  acquire rt ch w = Done ((Some p, e), ch', w') ->
  exists ch1, reserve rt ch = Some ch1.
Proof.
  unfold acquire. destruct (reserve rt ch) as [ch1|]; [eauto|discriminate].
Qed.

(** When [acquire] gave a Session, a call of [ServerVersion], [Query],
    [Exec] or [Ping] that returns leaves the number of permits in the
    [open] channel as it found it, and the idle queue with at most the
    used Session appended. *)
Theorem with_session_gives_the_permit_back {R : Type} (rt : runtime) (now : Z)
    (method : Conn.session_method R) (failed : error -> R) (ch ch1 ch' : clickhouse)
    (w w1 w' : world) (p : loc) (result : R) :
  acquire rt ch w = Done ((Some p, None), ch1, w1) ->
  Conn.with_session rt now method failed ch w = Done (result, ch', w') ->
  len (open ch') = len (open ch) /\
  counter ch' = counter ch1 /\
  (buf (idle ch') = buf (idle ch1) \/ buf (idle ch') = buf (idle ch1) ++ [p]).
Proof.
  intros Hacq Hwith.
  destruct (acquire_Some_reserved _ _ _ _ _ _ _ Hacq) as [ch0 Hres].
  destruct (acquire_open_after_reserve _ _ _ _ _ _ _ Hres Hacq) as [Hlen _].
  unfold Conn.with_session in Hwith. rewrite Hacq in Hwith. simpl in Hwith.
  destruct (conns w1 !! p) as [c|]; [|discriminate].
  destruct (method p c) as [[c' res]|]; [|discriminate]. simpl in Hwith.
  destruct (release _ _ _ _) as [[ch2 w2]|] eqn:Hrel; [|discriminate].
  injection Hwith as _ <- _. simpl.
  destruct (free_permit_frame ch1) as (_ & Hfi & Hfc & _).
  unfold release in Hrel.
  apply settle_Done in Hrel as (_ & -> & -> & _ & _ & _ & Hcase).
  rewrite free_permit_len, Hlen, Hfc. unfold len. split_and!; [lia|reflexivity|].
  destruct Hcase as [[-> _]|(_ & -> & _)]; rewrite Hfi; auto.
Qed.

Lemma with_session_gives_the_permit_back_witness :
  exists ch' w',
    Conn.Ping (in_time everyone_answers) 5 answers small_pool
      (world_of one_address) = Done (None, ch', w') /\
    len (open ch') = 0 /\ buf (idle ch') = [1%positive].
Proof.
  destruct (Conn.Ping (in_time everyone_answers) 5 answers small_pool
              (world_of one_address)) as [[[e ch'] w']|] eqn:Hping;
    [|vm_compute in Hping; discriminate].
  destruct (with_session_gives_the_permit_back (in_time everyone_answers) 5
              answers Some small_pool
              (set_counter 1 (set_open {| buf := [()]; cap := 10 |} small_pool))
              ch'
              (world_of one_address)
              (set_conns {[ 1%positive := {| id := 1; err := None;
                                             connectedAt := 3;
                                             closed := false |} ]}
                         (world_of one_address))
              w' 1%positive e) as (Hlen & _ & _).
  - vm_compute. reflexivity.
  - exact Hping.
  - exists ch', w'. vm_compute in Hping. injection Hping as <- <- <-.
    split; [reflexivity|]. split; [exact Hlen|reflexivity].
Defined.

(** A Session whose method leaves its error field set is closed by the
    deferred [release] and does not enter the idle queue; the method's
    result is returned and the permit is given back. *)
Theorem with_session_discards_a_failed_session {R : Type} (rt : runtime)
    (now : Z) (method : Conn.session_method R) (failed : error -> R)
    (ch ch1 : clickhouse) (w w1 : world) (p : loc) (c c' : connect)
    (result : R) :
  acquire rt ch w = Done ((Some p, None), ch1, w1) ->
  conns w1 !! p = Some c ->
  method p c = Done (c', result) ->
  is_Some (err c') ->
  exists ch' w',
    Conn.with_session rt now method failed ch w = Done (result, ch', w') /\
    idle ch' = idle ch1 /\
    conns w' !! p = Some (close c') /\
    len (open ch') = len (open ch).
Proof.
  intros Hacq Hc Hm [e He].
  destruct (acquire_Some_reserved _ _ _ _ _ _ _ Hacq) as [ch0 Hres].
  destruct (acquire_open_after_reserve _ _ _ _ _ _ _ Hres Hacq) as [Hlen _].
  unfold Conn.with_session. rewrite Hacq. simpl. rewrite Hc, Hm. simpl.
  unfold release, settle, worn_out. simpl.
  rewrite lookup_insert_eq, He. simpl.
  destruct (free_permit_frame ch1) as (_ & Hidle & _).
  eexists _, _. split; [reflexivity|]. simpl. split_and!.
  - exact Hidle.
  - rewrite lookup_alter_eq, lookup_insert_eq. reflexivity.
  - rewrite free_permit_len, Hlen. unfold len. lia.
Qed.

Lemma with_session_discards_a_failed_session_witness :
  exists ch' w',
    Conn.Exec (in_time everyone_answers) 5 breaks small_pool
      (world_of one_address) = Done (Some io_EOF, ch', w') /\
    buf (idle ch') = [] /\
    (closed <$> conns w' !! 1%positive) = Some true.
Proof.
  destruct (with_session_discards_a_failed_session (in_time everyone_answers) 5
              breaks Some small_pool
              (set_counter 1 (set_open {| buf := [()]; cap := 10 |} small_pool))
              (world_of one_address)
              (set_conns {[ 1%positive := {| id := 1; err := None;
                                             connectedAt := 3;
                                             closed := false |} ]}
                         (world_of one_address))
              1%positive
              {| id := 1; err := None; connectedAt := 3; closed := false |}
              (mark io_EOF {| id := 1; err := None; connectedAt := 3;
                              closed := false |})
              (Some io_EOF))
    as (ch' & w' & Hexec & Hidle & Hclosed & _).
  - vm_compute. reflexivity.
  - reflexivity.
  - reflexivity.
  - eexists. reflexivity.
  - exists ch', w'. split; [exact Hexec|]. split.
    + rewrite Hidle. reflexivity.
    + exact (f_equal (fmap closed) Hclosed).
Defined.

(** When [acquire] fails after reserving its permit, the caller returns
    the error at once, without [release]: pool and heap are what
    [acquire] left, with one more permit in the [open] channel. *)
Theorem with_session_keeps_the_permit_on_error {R : Type} (rt : runtime)
    (now : Z) (method : Conn.session_method R) (failed : error -> R)
    (ch ch0 ch1 : clickhouse) (w w1 : world) (conn : option loc) (e : error) :
  reserve rt ch = Some ch0 ->
  acquire rt ch w = Done ((conn, Some e), ch1, w1) ->
  Conn.with_session rt now method failed ch w = Done (failed e, ch1, w1) /\
  len (open ch1) = len (open ch) + 1.
Proof.
  intros Hres Hacq. split.
  - unfold Conn.with_session. rewrite Hacq. destruct conn; reflexivity.
  - eapply acquire_open_after_reserve; eassumption.
Qed.

Lemma with_session_keeps_the_permit_on_error_witness :
  Conn.Ping (in_time nobody_listens) 5 answers small_pool (world_of one_address) =
  Done (Some (DialError "connection refused"),
        set_counter 1 (set_open {| buf := [()]; cap := 10 |} small_pool),
        world_of one_address).
Proof.
  apply (with_session_keeps_the_permit_on_error (in_time nobody_listens) 5
           answers Some small_pool
           (set_open {| buf := [()]; cap := 10 |} small_pool) _ _ _ None).
  - vm_compute. reflexivity.
  - vm_compute. reflexivity.
Defined.

(** With an empty address list, a call that reaches the dial loop does
    not return: [acquire] gives a nil Session with a nil error and the
    deferred [release] reads through the nil pointer. *)
Theorem with_session_panics_without_addresses {R : Type} (rt : runtime)
    (now : Z) (method : Conn.session_method R) (failed : error -> R)
    (ch ch1 : clickhouse) (w : world) (o : Options) :
  reserve rt ch = Some ch1 ->
  pick_idle rt ch1 = Fresh ->
  options w !! opt ch = Some o ->
  Addr o = [] ->
  Conn.with_session rt now method failed ch w = Panics NilDereference.
Proof.
  intros Hres Hpick Hopt Haddr. unfold Conn.with_session, acquire.
  rewrite Hres, Hpick. apply reserve_Some in Hres as [-> _].
  unfold next_num. simpl. rewrite Hopt, Haddr. reflexivity.
Qed.

Lemma with_session_panics_without_addresses_witness :
  Conn.Ping (in_time everyone_answers) 5 answers small_pool (world_of zero_Options) =
    Panics NilDereference /\
  Conn.ServerVersion (in_time everyone_answers) 5 small_pool (world_of zero_Options) =
    Panics NilDereference.
Proof.
  split.
  - apply (with_session_panics_without_addresses (in_time everyone_answers) 5
             answers Some small_pool
             (set_open {| buf := [()]; cap := 10 |} small_pool)
             (world_of zero_Options) (setDefaults zero_Options));
      vm_compute; reflexivity.
  - apply (with_session_panics_without_addresses (in_time everyone_answers) 5
             _ _ small_pool
             (set_open {| buf := [()]; cap := 10 |} small_pool)
             (world_of zero_Options) (setDefaults zero_Options));
      vm_compute; reflexivity.
Defined.

(** [Stats] of a fresh pool reports no open and no idle connection.  In
    every state a pool reaches, the maxima are the capacities fixed by
    [Open], the open count is at most max-open and at least the number
    of calls and callers that hold a permit, and the idle count is
    between zero and max-idle. *)
Theorem Stats_within_bounds (p : loc) (h h' : gmap loc Options)
    (ch : clickhouse) (e : option error) (cs : gmap loc connect)
    (es : list event) (s : system) :
  Open p h = Done ((ch, e), h') ->
  run es (boot ch {| options := h'; conns := cs |}) = Some s ->
  Stats ch = {| StatsOpen := 0; StatsIdle := 0;
                StatsMaxOpenConns := cap (open ch);
                StatsMaxIdleConns := cap (idle ch) |} /\
  StatsMaxOpenConns (Stats (pool s)) = StatsMaxOpenConns (Stats ch) /\
  StatsMaxIdleConns (Stats (pool s)) = StatsMaxIdleConns (Stats ch) /\
  Z.of_nat (reserved s) + Z.of_nat (length (dialing s)) +
    Z.of_nat (length (out s)) <= StatsOpen (Stats (pool s)) /\
  StatsOpen (Stats (pool s)) <= StatsMaxOpenConns (Stats (pool s)) /\
  0 <= StatsIdle (Stats (pool s)) <= StatsMaxIdleConns (Stats (pool s)).
Proof.
  intros Hopen Hrun.
  apply Open_Done in Hopen as (o & Hp & -> & -> & -> & Hidle & Hopen).
  pose proof (run_same_config _ _ _ Hrun) as (_ & _ & Ecapo & Ecapi).
  assert (permits_cover s) as (Hsum & Hlo & Hli).
  { eapply (run_preserves permits_cover step_permits_cover); [exact Hrun|].
    apply boot_permits_cover; simpl; auto. }
  unfold Stats. simpl in *. split_and!; auto. unfold len. lia.
Qed.

Lemma Stats_within_bounds_witness :
  exists s,
    run two_in_one_back (boot small_pool (world_of one_address)) = Some s /\
    Stats (pool s) = {| StatsOpen := 1; StatsIdle := 1;
                        StatsMaxOpenConns := 10; StatsMaxIdleConns := 5 |} /\
    Z.of_nat (length (out s)) <= StatsOpen (Stats (pool s)).
Proof.
  assert (Open 1%positive {[ 1%positive := one_address ]} =
          Done ((small_pool, None), options (world_of one_address))) as Hopen
    by (vm_compute; reflexivity).
  destruct (run two_in_one_back (boot small_pool (world_of one_address)))
    as [s|] eqn:Hrun; [|vm_compute in Hrun; discriminate].
  destruct (Stats_within_bounds _ _ _ _ _ ∅ _ s Hopen Hrun)
    as (_ & _ & _ & Hheld & _ & _).
  exists s. split; [reflexivity|]. split.
  - vm_compute in Hrun. injection Hrun as <-. reflexivity.
  - lia.
Defined.

(** Options that come out of [fromDSN] are already defaulted: [Open]
    through a pointer to them leaves them as they are and sizes the two
    channels by their max-idle and max-open. *)
Theorem fromDSN_then_Open (url_Parse : string -> URL + error)
    (keys : list string) (input : string) (o : Options) (dsn : URL)
    (p : loc) (h h' : gmap loc Options) (ch : clickhouse) (e : option error) :
  url_Parse input = inl dsn ->
  h !! p = Some (fromDSN url_Parse keys input o).1 ->
  Open p h = Done ((ch, e), h') ->
  h' = h /\
  cap (idle ch) = MaxIdleConns (fromDSN url_Parse keys input o).1 /\
  cap (open ch) = MaxOpenConns (fromDSN url_Parse keys input o).1.
Proof.
  intros Hdsn Hp Hopen. unfold fromDSN in *. rewrite Hdsn in *. simpl in *.
  apply Open_Done in Hopen as (o' & Hp' & -> & _ & -> & _).
  rewrite Hp in Hp'. injection Hp' as <-.
  rewrite setDefaults_fixed. simpl. split_and!; try reflexivity.
  apply insert_id. exact Hp.
Qed.

Lemma fromDSN_then_Open_witness :
  Open 1%positive
    {[ 1%positive :=
         (fromDSN sample_Parse [] "clickhouse://127.0.0.1:9000" zero_Options).1 ]}
  = Done ((small_pool, None),
          {[ 1%positive :=
               (fromDSN sample_Parse [] "clickhouse://127.0.0.1:9000"
                  zero_Options).1 ]}).
Proof.
  destruct (Open 1%positive
              {[ 1%positive :=
                   (fromDSN sample_Parse [] "clickhouse://127.0.0.1:9000"
                      zero_Options).1 ]}) as [[[ch e] h']|] eqn:Hopen;
    [|vm_compute in Hopen; discriminate].
  destruct (fromDSN_then_Open sample_Parse [] "clickhouse://127.0.0.1:9000"
              zero_Options {| Host := "127.0.0.1:9000"; Query := ∅ |}
              1%positive _ h' ch e eq_refl (lookup_singleton_eq _ _) Hopen)
    as (-> & _ & _).
  vm_compute in Hopen. injection Hopen as <- <-. reflexivity.
Defined.

(** A connection string never switches compression off: Options that
    carry a compression method keep one, whatever the compress option
    says.  The debug option does switch off: present with a value that
    is not a true spelling, it clears the flag. *)
Theorem fromDSN_compress_only_switches_on (url_Parse : string -> URL + error)
    (keys : list string) (input : string) (o : Options) (dsn : URL) :
  url_Parse input = inl dsn ->
  (is_Some (Compression_ o) ->
   is_Some (Compression_ (fromDSN url_Parse keys input o).1)) /\
  ("debug" ∈ keys -> Get (Query dsn) "debug" ∉ true_spellings ->
   Debug (fromDSN url_Parse keys input o).1 = false).
Proof.
  intros Hdsn. unfold fromDSN. rewrite Hdsn, foldl_dsn_option. simpl.
  destruct (setDefaults_frame
              (loop_effect (Query dsn) keys (set_Addr (Addr o ++ [Host dsn]) o)))
    as (_ & _ & _ & -> & _ & ->).
  unfold loop_effect. simpl. split.
  - intros Hc. destruct (decide ("compress" ∈ keys)); [|exact Hc].
    destruct (ParseBool (Get (Query dsn) "compress")).1; [eauto|exact Hc].
  - intros Hin Hfalse. rewrite decide_True by exact Hin.
    rewrite ParseBool_true. apply bool_decide_eq_false_2. exact Hfalse.
Qed.

Lemma fromDSN_compress_only_switches_on_witness :
  is_Some
    (Compression_
       (fromDSN sample_Parse ["compress"]
          "clickhouse://127.0.0.1:9000?compress=yes"
          (set_Compression (Some {| Method := compress_ZSTD |}) zero_Options)).1).
Proof.
  destruct (fromDSN_compress_only_switches_on sample_Parse ["compress"]
              "clickhouse://127.0.0.1:9000?compress=yes"
              (set_Compression (Some {| Method := compress_ZSTD |}) zero_Options)
              {| Host := "127.0.0.1:9000";
                 Query := {[ "compress" := ["yes"] ]} |} eq_refl)
    as [Hkeep _].
  apply Hkeep. eexists. reflexivity.
Defined.

(** [acquire] never changes a Session that exists, the options, or the
    capacities of the two channels. *)
Theorem acquire_leaves_sessions_alone (rt : runtime) (ch ch' : clickhouse)
    (w w' : world) (r : option loc * option error) :
  acquire rt ch w = Done (r, ch', w') ->
  opt ch' = opt ch /\ options w' = options w /\
  cap (open ch') = cap (open ch) /\ cap (idle ch') = cap (idle ch) /\
  (forall q, is_Some (conns w !! q) -> conns w' !! q = conns w !! q).
Proof.
  intros Hacq. destruct (acquire_frame _ _ _ _ _ _ Hacq) as (? & ? & ? & ?).
  split_and!; try assumption.
  intros q Hq. unfold acquire in Hacq.
  destruct (reserve rt ch) as [ch1|]; [|injection Hacq as _ _ <-; reflexivity].
  destruct (pick_idle rt ch1) as [|c ch2|];
    [injection Hacq as _ _ <-; reflexivity
    |injection Hacq as _ _ <-; reflexivity|].
  unfold next_num in Hacq. simpl in Hacq.
  destruct (options w !! opt ch1); [|discriminate].
  destruct (dial_each _ _ _ _ _ _) as [res w1] eqn:Hdial.
  injection Hacq as _ _ <-.
  apply dial_each_frame in Hdial as [_ [[_ ->]|(c & _ & ->)]]; [reflexivity|].
  simpl. apply lookup_insert_ne. intros <-.
  apply elem_of_dom in Hq. exact (is_fresh _ Hq).
Qed.

Lemma step_sound e s s' : step e s = Some s' -> sound s -> sound s'.
Proof.
  intros Hstep (Hapart & Hopen & Hidle).
  split; [eapply step_sessions_apart; eassumption|].
  destruct Hapart as [Hnd Hcell].
  unfold circulating in *.
  destruct s as [ch w n ds os rs]. simpl in *.
  destruct e; simpl in Hstep.
  - simplify_eq. auto.
  - unfold try_send in Hstep. case_match; simplify_option_eq. auto.
  - destruct n; simplify_eq/=. auto.
  - unfold try_recv in Hstep. destruct n; [discriminate|].
    destruct (buf (idle ch)) as [|c q] eqn:Hq; simplify_eq/=. split.
    + intros p Hp. apply Hopen. rewrite <- Permutation_middle in Hp. exact Hp.
    + intros p Hp. apply Hidle. apply elem_of_cons. auto.
  - destruct n; [discriminate|]. destruct (buf (idle ch)) eqn:Hq; simplify_eq/=.
    rewrite Hq. auto.
  - destruct (take_out num ds) as [d|] eqn:Hd; [|discriminate]. simpl in Hstep.
    destruct (options w !! opt ch); [|discriminate]. simpl in Hstep.
    destruct (dial_each _ _ _ _ _ _) as [res w1] eqn:Hdial. simplify_eq/=.
    pose proof (dial_each_session nw num (Addr o) 0%nat (None, None) w res w1
                  (fresh (dom (conns w))) eq_refl Hdial) as Hnew.
    apply dial_each_frame in Hdial as [_ [[[Hr|Hr] ->]|(c & Hr & ->)]];
      rewrite Hr in *; simpl; auto.
    destruct (Hnew eq_refl) as (_ & t & Hcell'). simpl in Hcell'.
    assert (forall p, p ∈ buf (idle ch) ++ os ++ rs ->
                      p ≠ fresh (dom (conns w))) as Hold.
    { intros p Hp ->. apply Hcell, elem_of_dom in Hp. exact (is_fresh _ Hp). }
    split.
    + intros p Hp. rewrite <- Permutation_middle in Hp.
      apply elem_of_cons in Hp as [->|Hp].
      * eexists. split; [exact Hcell'|reflexivity].
      * rewrite lookup_insert_ne by (intros E; exact (Hold p Hp (eq_sym E))).
        apply Hopen. exact Hp.
    + intros p Hp.
      rewrite lookup_insert_ne.
      * apply Hidle. exact Hp.
      * intros E. apply (Hold p); [|congruence].
        apply elem_of_app. auto.
  - case_decide as Hin; simplify_eq/=.
    assert (forall p, p ∈ buf (idle ch) -> p ≠ c) as Hne.
    { intros p Hp ->. apply NoDup_app in Hnd as (_ & Hdisj & _).
      apply (Hdisj c Hp). apply elem_of_app. auto. }
    split.
    + intros p Hp. destruct (decide (p = c)) as [->|Hpc].
      * destruct (Hopen c Hp) as (cc & Hcc & Hclosed).
        exists (mark e cc). rewrite lookup_alter_eq, Hcc. auto.
      * rewrite lookup_alter_ne by congruence. apply Hopen. exact Hp.
    + intros p Hp. rewrite lookup_alter_ne by (intros E; exact (Hne p Hp (eq_sym E))).
      apply Hidle. exact Hp.
  - destruct (take_out c os) as [o|] eqn:Ho; [|discriminate]. simplify_eq/=.
    destruct (free_permit_frame ch) as (_ & -> & _).
    apply take_out_Some in Ho. split; [|exact Hidle].
    intros p Hp. apply Hopen.
    rewrite !elem_of_app in Hp |- *. rewrite Ho. rewrite !elem_of_cons in Hp |- *.
    tauto.
  - destruct (take_out c rs) as [r|] eqn:Hr; [|discriminate]. simpl in Hstep.
    destruct (settle now c ch w) as [[ch1 w1]|] eqn:Hs; [|discriminate].
    simplify_eq/=. apply take_out_Some in Hr.
    apply settle_Done in Hs as (_ & _ & _ & _ & _ & _ & Hcase).
    assert (forall p, p ∈ buf (idle ch) ++ os ++ rs <->
                      p = c \/ p ∈ buf (idle ch) ++ os ++ r) as Hmem.
    { intros p. rewrite !elem_of_app, Hr, elem_of_cons. tauto. }
    rewrite Hr in Hnd.
    assert (NoDup (c :: buf (idle ch) ++ os ++ r)) as Hnd'
      by (rewrite <- !Permutation_middle in Hnd; exact Hnd).
    apply NoDup_cons in Hnd' as [Hc _].
    destruct Hcase as [[-> ->]|(_ & Hbuf & -> & cc & Hcc & Herr)].
    + assert (forall p, p ∈ buf (idle ch) ++ os ++ r ->
                conns (close_at c w) !! p = conns w !! p) as Hsame.
      { intros p Hp. unfold close_at. simpl. apply lookup_alter_ne.
        intros <-. exact (Hc Hp). }
      split.
      * intros p Hp. rewrite (Hsame p Hp). apply Hopen, Hmem. auto.
      * intros p Hp. rewrite Hsame by (apply elem_of_app; auto).
        apply Hidle. exact Hp.
    + rewrite Hbuf. split.
      * intros p Hp. apply Hopen, Hmem.
        rewrite !elem_of_app, list_elem_of_singleton in Hp.
        rewrite !elem_of_app. tauto.
      * intros p Hp. apply elem_of_app in Hp as [Hp|Hp]; [auto|].
        apply list_elem_of_singleton in Hp as ->. eauto.
  - unfold try_recv in Hstep.
    destruct (buf (idle ch)) as [|c q] eqn:Hq; simplify_eq/=.
    apply NoDup_cons in Hnd as [Hc _].
    assert (forall p, p ∈ q ++ os ++ rs ->
              alter close c (conns w) !! p = conns w !! p) as Hsame.
    { intros p Hp. apply lookup_alter_ne. intros <-. exact (Hc Hp). }
    split.
    + intros p Hp. rewrite (Hsame p Hp). apply Hopen. apply elem_of_cons. auto.
    + intros p Hp. rewrite Hsame by (apply elem_of_app; auto).
      apply Hidle. apply elem_of_cons. auto.
Qed.

(** In every state a pool built by [Open] reaches, no Session is in two
    places among the idle queue, the callers' hands and the calls of
    [release]; every such Session is open; and every Session in the idle
    queue has a nil error field. *)
Theorem circulating_sessions_are_sound (p : loc) (h h' : gmap loc Options)
    (ch : clickhouse) (e : option error) (cs : gmap loc connect)
    (es : list event) (s : system) :
  Open p h = Done ((ch, e), h') ->
  run es (boot ch {| options := h'; conns := cs |}) = Some s ->
  NoDup (buf (idle (pool s)) ++ out s ++ releasing s) /\
  (forall q, (q ∈ (buf (idle (pool s)) ++ out s ++ releasing s)) ->
     exists c, conns (heap s) !! q = Some c /\ closed c = false) /\
  (forall q, (q ∈ buf (idle (pool s))) ->
     exists c, conns (heap s) !! q = Some c /\ err c = None).
Proof.
  intros Hopen Hrun.
  apply Open_Done in Hopen as (o & _ & -> & -> & -> & _ & _).
  assert (sound s) as ([Hnd _] & Hopen & Hidle).
  { eapply (run_preserves sound step_sound); [exact Hrun|].
    split; [apply boot_sessions_apart; reflexivity|].
    unfold circulating, boot. simpl. split; intros q Hq; inversion Hq. }
  auto.
Qed.

Lemma acquire_leaves_sessions_alone_witness :
  exists r ch' w',
    acquire (in_time everyone_answers) busy_pool
      (set_conns {[ 1%positive := session None ]} (world_of one_address)) =
      Done (r, ch', w') /\
    r = (Some 2%positive, None) /\
    conns w' !! 1%positive = Some (session None).
Proof.
  destruct (acquire (in_time everyone_answers) busy_pool
              (set_conns {[ 1%positive := session None ]}
                 (world_of one_address))) as [[[r ch'] w']|] eqn:Hacq;
    [|vm_compute in Hacq; discriminate].
  destruct (acquire_leaves_sessions_alone _ _ _ _ _ _ Hacq)
    as (_ & _ & _ & _ & Hsame).
  exists r, ch', w'. split; [reflexivity|]. split.
  - vm_compute in Hacq. injection Hacq as <- _ _. reflexivity.
  - rewrite Hsame; [reflexivity|]. eexists. reflexivity.
Defined.

Lemma circulating_sessions_are_sound_witness :
  exists s,
    run two_in_one_back (boot small_pool (world_of one_address)) = Some s /\
    buf (idle (pool s)) = [1%positive] /\ out s = [2%positive] /\
    NoDup (buf (idle (pool s)) ++ out s ++ releasing s).
Proof.
  assert (Open 1%positive {[ 1%positive := one_address ]} =
          Done ((small_pool, None), options (world_of one_address))) as Hopen
    by (vm_compute; reflexivity).
  destruct (run two_in_one_back (boot small_pool (world_of one_address)))
    as [s|] eqn:Hrun; [|vm_compute in Hrun; discriminate].
  destruct (circulating_sessions_are_sound _ _ _ _ _ ∅ _ s Hopen Hrun)
    as (Hnd & _ & _).
  exists s. split; [reflexivity|].
  split; [vm_compute in Hrun; injection Hrun as <-; reflexivity|].
  split; [vm_compute in Hrun; injection Hrun as <-; reflexivity|exact Hnd].
Defined.

Lemma Close_closes_the_idle_witness :
  conns (Close (set_idle {| buf := [1%positive]; cap := 5 |} small_pool)
               (world_with (session None))).2 !! 1%positive =
  Some (close (session None)).
Proof.
  destruct (Close_closes_the_idle
              (set_idle {| buf := [1%positive]; cap := 5 |} small_pool)
              (world_with (session None)))
    as (_ & _ & _ & _ & _ & _ & _ & Hin & _).
  apply Hin; [|reflexivity]. apply list_elem_of_In. simpl. auto.
Defined.
